(** * Will.IAM: permission model and attribution workflow

    A shallow embedding of [models/permission.go] and
    [usecases/permissions.go], with the properties of the matching
    algorithms, of the permission string codec and of the transactional
    attribution of permissions to roles.

    Go strings are byte sequences: they are modelled by [string], whose
    characters are bytes ([ascii]).  Go slices that are only read are
    modelled by lists. *)

From Stdlib Require Import Bool Arith Lia List String Ascii Permutation.
Import ListNotations.

Open Scope string_scope.
Open Scope list_scope.

(* ================================================================= *)
(** ** The fragment of Go's [strings] package that the program uses *)

Module strings.

(** [s[:n]] *)
Fixpoint take (n : nat) (s : string) : string :=
  match n, s with
  | S n', String c s' => String c (take n' s')
  | _, _ => EmptyString
  end.

(** [s[n:]] *)
Fixpoint drop (n : nat) (s : string) : string :=
  match n, s with
  | S n', String _ s' => drop n' s'
  | _, _ => s
  end.

(** [strings.HasPrefix(s, prefix)] *)
Fixpoint HasPrefix (s prefix : string) : bool :=
  match prefix, s with
  | EmptyString, _ => true
  | String _ _, EmptyString => false
  | String a prefix', String b s' => Ascii.eqb a b && HasPrefix s' prefix'
  end.

(** [strings.Index(s, substr)]: the index of the first instance of
    [substr] in [s]; [None] stands for Go's [-1]. *)
Fixpoint Index (s substr : string) : option nat :=
  match s with
  | EmptyString => if HasPrefix EmptyString substr then Some 0 else None
  | String c s' =>
      if HasPrefix (String c s') substr then Some 0
      else option_map S (Index s' substr)
  end.

(** The loop of [genSplit]: cut at the first instance of [sep], go on
    after it.  Every round consumes at least one byte when [sep] is
    not empty, so [length s] rounds are enough (lemma [genSplit_fuel]). *)
Fixpoint genSplit (fuel : nat) (s sep : string) : list string :=
  match fuel with
  | 0 => [s]
  | S fuel' =>
      match Index s sep with
      | None => [s]
      | Some m => take m s :: genSplit fuel' (drop (m + String.length sep) s) sep
      end
  end.

(** [strings.Split(s, sep)] for a separator that is not empty (the
    program only ever splits on ["::"]). *)
Definition Split (s sep : string) : list string :=
  genSplit (String.length s) s sep.

(** [strings.Join(elems, sep)] *)
Fixpoint Join (elems : list string) (sep : string) : string :=
  match elems with
  | [] => EmptyString
  | [x] => x
  | x :: rest => (x ++ sep ++ Join rest sep)%string
  end.

End strings.

(** Go's [error] values are modelled by their message; [None] is [nil]. *)
Definition error := string.

(* ================================================================= *)
(** ** models/permission.go *)

Module OwnershipLevel.
Definition t := string.
Definition String (o : t) : string := o.
End OwnershipLevel.

(** [OwnershipLevels]: all possible holding rights. *)
Module OwnershipLevels.
Definition Owner : OwnershipLevel.t := "RO".
Definition Lender : OwnershipLevel.t := "RL".
End OwnershipLevels.

(** [Less] returns true if o < oo; Lender < Owner. *)
Definition Less (o oo : OwnershipLevel.t) : bool :=
  if (o =? OwnershipLevels.Lender) && (oo =? OwnershipLevels.Owner)
  then true
  else false.

Module Action.
Definition t := string.
Definition String (a : t) : string := a.
Definition All (a : t) : bool := String a =? "*".
End Action.

Definition BuildAction (str : string) : Action.t := str.

Module ResourceHierarchy.
Definition t := string.
Definition String (rh : t) : string := rh.
Definition All (rh : t) : bool := rh =? "*".
End ResourceHierarchy.

Definition BuildResourceHierarchy (rh : string) : ResourceHierarchy.t := rh.

(** The loop of [PermissionMatches]: [i] runs from 1 while
    [i < len(parts)]; [fuel] is the number of indices left. *)
Fixpoint PermissionMatches_loop
    (parts : list string) (i fuel : nat) (ret : list string) : list string :=
  match fuel with
  | 0 => ret
  | S fuel' =>
      if nth i parts "" =? "*" then ret
      else
        let match_ := strings.Join (firstn i parts) "::" in
        PermissionMatches_loop parts (S i) fuel' (ret ++ [(match_ ++ "::*")%string])
  end.

Definition PermissionMatches (rh : ResourceHierarchy.t) : list string :=
  let whole := rh in
  if whole =? "*" then [whole]
  else
    let parts := strings.Split whole "::" in
    let ret := ["*"] in
    let ret := PermissionMatches_loop parts 1 (List.length parts - 1) ret in
    ret ++ [whole].

Record resourceHierarchy := {
  size : nat;
  hierarchy : list string
}.

Definition buildResourceHierarchy (rh : ResourceHierarchy.t) : resourceHierarchy :=
  let parts := strings.Split rh "::" in
  let size := List.length parts in
  {| size := size; hierarchy := parts |}.

(** The loop of [Contains]: [for i := range orhh.hierarchy], with [fuel]
    the number of indices left to visit. *)
Fixpoint Contains_loop (rhh orhh : list string) (i fuel : nat) : bool :=
  match fuel with
  | 0 => true
  | S fuel' =>
      if (List.length rhh <=? i)%nat then false
      else if nth i rhh "" =? "*" then true
      else if negb (nth i orhh "" =? nth i rhh "") then false
      else Contains_loop rhh orhh (S i) fuel'
  end.

(** [Contains] checks whether rh.Hierarchy contains orh.Hierarchy. *)
Definition Contains (rh orh : ResourceHierarchy.t) : bool :=
  let rhh := buildResourceHierarchy rh in
  let orhh := buildResourceHierarchy orh in
  if (size orhh <? size rhh)%nat then false
  else Contains_loop (hierarchy rhh) (hierarchy orhh) 0 (List.length (hierarchy orhh)).

(** [Permission] is bound to a role and defines the ownership level of an
    action over a resource. *)
Record Permission := {
  ID : string;
  RoleID : string;
  Service : string;
  OwnershipLevel : OwnershipLevel.t;
  Action : Action.t;
  ResourceHierarchy : ResourceHierarchy.t;
  Alias : string
}.

(** The messages of the three validation errors. *)
Definition errIncomplete : error :=
  ("Incomplete permission. Expected format: " ++
   "Service::OwnershipLevel::Action::{ResourceHierarchy}")%string.
Definition errOwnershipLevel : error := "OwnershipLevel needs to be RO or RL".
Definition errEmptyPart : error := "No parts can be empty".

(** [for _, part := range parts { if part == "" ... }] *)
Fixpoint anyEmpty (parts : list string) : bool :=
  match parts with
  | [] => false
  | part :: rest => if part =? "" then true else anyEmpty rest
  end.

(** [ValidatePermission] validates a permission in string format. *)
Definition ValidatePermission (str : string) : bool * option error :=
  let parts := strings.Split str "::" in
  if (List.length parts <? 4)%nat then (false, Some errIncomplete)
  else
    let ol : OwnershipLevel.t := nth 1 parts "" in
    if negb (ol =? OwnershipLevels.Owner) && negb (ol =? OwnershipLevels.Lender)
    then (false, Some errOwnershipLevel)
    else if anyEmpty parts then (false, Some errEmptyPart)
    else (true, None).

(** [Permission{}], the zero value. *)
Definition zeroPermission : Permission :=
  {| ID := ""; RoleID := ""; Service := ""; OwnershipLevel := "";
     Action := ""; ResourceHierarchy := ""; Alias := "" |}.

(** [BuildPermission] transforms a string into struct.  The indexings
    [parts[0..2]] and the slice [parts[3:]] are in range: the validation
    has checked that there are at least 4 parts. *)
Definition BuildPermission (str : string) : Permission * option error :=
  let '(valid, err) := ValidatePermission str in
  if negb valid then (zeroPermission, err)
  else
    let parts := strings.Split str "::" in
    let service := nth 0 parts "" in
    let ol : OwnershipLevel.t := nth 1 parts "" in
    let action := BuildAction (nth 2 parts "") in
    let rh : ResourceHierarchy.t := strings.Join (skipn 3 parts) "::" in
    ({| ID := ""; RoleID := ""; Service := service; OwnershipLevel := ol;
        Action := action; ResourceHierarchy := rh; Alias := "" |}, None).

(** [IsPresent] checks if a permission is satisfied in a slice. *)
Fixpoint IsPresent (p : Permission) (permissions : list Permission) : bool :=
  match permissions with
  | [] => false
  | pp :: rest =>
      if (negb (Service pp =? "*") && negb (Service pp =? Service p))
         || (negb (Action pp =? "*") && negb (Action pp =? Action p))
         || Less (OwnershipLevel pp) (OwnershipLevel p)
      then IsPresent p rest
      else if Contains (ResourceHierarchy pp) (ResourceHierarchy p) then true
      else IsPresent p rest
  end.

(** [String] converts a permission to its equivalent string format:
    [fmt.Sprintf("%s::%s::%s::%s", ...)]. *)
Definition Permission_String (p : Permission) : string :=
  (Service p ++ "::" ++ OwnershipLevel.String (OwnershipLevel p) ++ "::" ++
   Action.String (Action p) ++ "::" ++
   ResourceHierarchy.String (ResourceHierarchy p))%string.

Definition HasServiceFullAccess (p : Permission) : bool :=
  if negb (Action.All (Action p)) then false
  else ResourceHierarchy.All (ResourceHierarchy p).

Definition HasServiceFullOwnership (p : Permission) : bool :=
  HasServiceFullAccess p && (OwnershipLevel p =? OwnershipLevels.Owner).


(* ================================================================= *)
(** ** The store, as the use cases see it *)

(** [models.ServiceAccount], with the columns that the queries of the
    service accounts repository select. *)
Module ServiceAccount.
Record t := {
  ID : string;
  Name : string;
  KeyID : string;
  KeySecret : string;
  Email : string;
  BaseRoleID : string
}.
End ServiceAccount.

(** What a run does to the store, in the order it does it.  The trace is
    an observation of the run: rolling a transaction back discards its
    writes, not the fact that they were issued. *)
Inductive event :=
| TxBegin
| Created (p : Permission)
| TxCommit
| TxRollback.

Section Repositories.

(** The contents of the persistent store. *)
Variable DB : Type.

Record World := {
  store : DB;
  trace : list event
}.

(** Store operations pass the world along. *)
Definition M (A : Type) : Type := World -> A * World.

Definition ret {A} (a : A) : M A := fun w => (a, w).

Definition bind {A B} (c : M A) (k : A -> M B) : M B :=
  fun w => let '(a, w') := c w in k a w'.

(** [repositories.All], with the operations that the attribution workflow
    calls.  They are outside this development and are kept abstract:
    - [Permissions_Create] is [Permissions.Create(p *models.Permission)]:
      from the record behind the pointer and the store it gives the
      record after the call (the callee may write through the pointer),
      the error and the store after the call, whatever the outcome;
    - [ServiceAccounts_ForEmails] is [ServiceAccounts.ForEmails(emails)],
      a query: it reads the store and returns the accounts and an
      error;
    - [Tx_Begin] and [Tx_Commit] are the begin and the commit of a
      transaction of the store, by the error they return: the begin on
      the store of that moment, the commit on the store that the work of
      the transaction has left. *)
Record All := {
  Permissions_Create :
    Permission -> DB -> (Permission * option error) * DB;
  ServiceAccounts_ForEmails :
    list string -> DB -> list ServiceAccount.t * option error;
  Tx_Begin : DB -> option error;
  Tx_Commit : DB -> option error
}.

(** [repo.Permissions.Create(&permission)] *)
Definition Create (repo : All) (permission : Permission)
  : M (Permission * option error) :=
  fun w =>
    let '(r, db) := Permissions_Create repo permission (store w) in
    (r, {| store := db; trace := trace w ++ [Created permission] |}).

(** [repo.ServiceAccounts.ForEmails(emails)] *)
Definition ForEmails (repo : All) (emails : list string)
  : M (list ServiceAccount.t * option error) :=
  fun w => (ServiceAccounts_ForEmails repo emails (store w), w).

Definition emit (e : event) : M unit :=
  fun w => (tt, {| store := store w; trace := trace w ++ [e] |}).

(** Modelled from the spec: [repositories.All.WithPGTx], which is not part
    of the sources at hand.  The spec describes it as the operation that
    acquires a transactional scope from the store, runs [work] against a
    repository handle scoped to it, and commits or rolls back based on the
    error that [work] returns; the calls to the store may fail, their
    errors are propagated unchanged, and no partial state is committed.
    So: an error of the begin is returned before any work; the work runs
    on the store of the transaction, which starts as the store of the
    moment; an error of the work, or of the commit, is returned and the
    store is again the store of before the transaction; without an error
    the store that the work has left is the store. *)
Definition WithPGTx (repo : All) (fn : All -> M (option error))
  : M (option error) :=
  fun w =>
    match Tx_Begin repo (store w) with
    | Some e => (Some e, w)
    | None =>
        let '(_, w1) := emit TxBegin w in
        let '(err, w2) := fn repo w1 in
        match err with
        | Some e =>
            let '(_, w3) :=
              emit TxRollback {| store := store w; trace := trace w2 |} in
            (Some e, w3)
        | None =>
            match Tx_Commit repo (store w2) with
            | Some e =>
                let '(_, w3) :=
                  emit TxRollback {| store := store w; trace := trace w2 |} in
                (Some e, w3)
            | None =>
                let '(_, w3) := emit TxCommit w2 in (None, w3)
            end
        end
    end.

End Repositories.

Arguments store {DB} _.
Arguments trace {DB} _.
Arguments Build_World {DB} _ _.
Arguments ret {DB A} _ _.
Arguments bind {DB A B} _ _ _.
Arguments Permissions_Create {DB} _ _ _.
Arguments ServiceAccounts_ForEmails {DB} _ _ _.
Arguments Tx_Begin {DB} _ _.
Arguments Tx_Commit {DB} _ _.
Arguments Build_All {DB} _ _ _ _.
Arguments Create {DB} _ _ _.
Arguments ForEmails {DB} _ _ _.
Arguments emit {DB} _ _.
Arguments WithPGTx {DB} _ _ _.

(* ================================================================= *)
(** ** usecases/permissions.go *)

(** [PermissionsAttribute] are used in PUT /permissions/attribute. *)
Module PermissionsAttribute.
Record t := {
  RolesIDs : list string;
  PermissionsStrings : list string;
  PermissionsAliases : list (string * string);
  Permissions : list Permission
}.
End PermissionsAttribute.

(** [PermissionsAttributeToEmails] are used in
    PUT /permissions/attribute_to_emails. *)
Module PermissionsAttributeToEmails.
Record t := {
  Emails : list string;
  PermissionsStrings : list string;
  PermissionsAliases : list (string * string);
  Permissions : list Permission
}.
End PermissionsAttributeToEmails.

(** [permission.RoleID = roleID], on the loop's own copy of the record. *)
Definition setRoleID (permission : Permission) (roleID : string) : Permission :=
  {| ID := ID permission;
     RoleID := roleID;
     Service := Service permission;
     OwnershipLevel := OwnershipLevel permission;
     Action := Action permission;
     ResourceHierarchy := ResourceHierarchy permission;
     Alias := Alias permission |}.

Section Usecases.

Variable DB : Type.

Local Notation "x <- c ;; k" := (bind c (fun x => k))
  (at level 61, c at next level, right associativity).

(** [for _, permission := range pa.Permissions { ... }]: the loop variable
    is a copy of the slice element, assigned anew at every round, so what
    [Create] writes through the pointer is gone at the next round and
    never reaches [pa.Permissions]. *)
Fixpoint Attribute_permissions
    (repo : All DB) (roleID : string) (permissions : list Permission)
  : M DB (option error) :=
  match permissions with
  | [] => ret None
  | permission :: rest =>
      let permission := setRoleID permission roleID in
      r <- Create repo permission ;;
      match snd r with
      | Some err => ret (Some err)
      | None => Attribute_permissions repo roleID rest
      end
  end.

(** [for _, roleID := range pa.RolesIDs { ... }] *)
Fixpoint Attribute_roles
    (repo : All DB) (rolesIDs : list string) (permissions : list Permission)
  : M DB (option error) :=
  match rolesIDs with
  | [] => ret None
  | roleID :: rest =>
      err <- Attribute_permissions repo roleID permissions ;;
      match err with
      | Some e => ret (Some e)
      | None => Attribute_roles repo rest permissions
      end
  end.

Definition Attribute (repo : All DB) (pa : PermissionsAttribute.t)
  : M DB (option error) :=
  WithPGTx repo (fun repo =>
    Attribute_roles repo
      (PermissionsAttribute.RolesIDs pa)
      (PermissionsAttribute.Permissions pa)).

(** [for _, sa := range sas { ... }] *)
Fixpoint AttributeToEmails_accounts
    (repo : All DB) (sas : list ServiceAccount.t)
    (permissions : list Permission)
  : M DB (option error) :=
  match sas with
  | [] => ret None
  | sa :: rest =>
      err <- Attribute_permissions repo (ServiceAccount.BaseRoleID sa)
               permissions ;;
      match err with
      | Some e => ret (Some e)
      | None => AttributeToEmails_accounts repo rest permissions
      end
  end.

Definition AttributeToEmails
    (repo : All DB) (pa : PermissionsAttributeToEmails.t)
  : M DB (option error) :=
  r <- ForEmails repo (PermissionsAttributeToEmails.Emails pa) ;;
  match snd r with
  | Some err => ret (Some err)
  | None =>
      WithPGTx repo (fun repo =>
        AttributeToEmails_accounts repo (fst r)
          (PermissionsAttributeToEmails.Permissions pa))
  end.

End Usecases.

Arguments Attribute_permissions {DB} _ _ _ _.
Arguments Attribute_roles {DB} _ _ _ _.
Arguments Attribute {DB} _ _ _.
Arguments AttributeToEmails_accounts {DB} _ _ _ _.
Arguments AttributeToEmails {DB} _ _ _.

(* ================================================================= *)
(** ** Definitions of the specification *)

(** The walk of [Contains] as the specification words it, on the two
    segment sequences: walking [other]'s segments, [false] if [self] runs
    out of segments first, [true] at once when the segment of [self] is
    ["*"], [false] on the first pair that differs, [true] when the walk
    completes. *)
Fixpoint walk (self other : list string) : bool :=
  match other with
  | [] => true
  | o :: other' =>
      match self with
      | [] => false
      | s :: self' =>
          if s =? "*" then true
          else if s =? o then walk self' other'
          else false
      end
  end.

(** [self] is a prefix of [other], segment by segment. *)
Fixpoint isPrefix (self other : list string) : bool :=
  match self, other with
  | [], _ => true
  | _ :: _, [] => false
  | s :: self', o :: other' => (s =? o) && isPrefix self' other'
  end.

(** [self] wildcard-terminates within [other]: it has a ["*"] at an index
    that [other] has too, and the segments before it are those of
    [other]. *)
Definition wildcardWithin (self other : list string) : Prop :=
  exists k, k < List.length other /\ nth k self "" = "*" /\
            firstn k self = firstn k other.

(** One held permission [h] satisfies the candidate [p]. *)
Definition satisfies (h p : Permission) : Prop :=
  (Service h = "*" \/ Service h = Service p)
  /\ (Action h = "*" \/ Action h = Action p)
  /\ Less (OwnershipLevel h) (OwnershipLevel p) = false
  /\ Contains (ResourceHierarchy h) (ResourceHierarchy p) = true.

(** The role-major cross product of an attribution: for each role id, for
    each permission template, the template with [RoleID] set. *)
Definition cross (rolesIDs : list string) (permissions : list Permission)
  : list Permission :=
  flat_map (fun roleID => map (fun p => setRoleID p roleID) permissions)
           rolesIDs.

(** The records that a run handed to [Create], in order. *)
Fixpoint created (tr : list event) : list Permission :=
  match tr with
  | [] => []
  | Created p :: tr' => p :: created tr'
  | _ :: tr' => created tr'
  end.

(** Creating the records of a list one after the other, up to the first
    create that returns an error. *)
Fixpoint creates {DB} (repo : All DB) (ps : list Permission)
  : M DB (option error) :=
  match ps with
  | [] => ret None
  | p :: rest =>
      fun w =>
        let '(r, w') := Create repo p w in
        match snd r with
        | Some err => (Some err, w')
        | None => creates repo rest w'
        end
  end.

(** The store after the first [k] creates of a list, each of them on the
    store that the one before it has left. *)
Fixpoint storeAfter {DB} (repo : All DB) (ps : list Permission) (k : nat)
    (db : DB) : DB :=
  match k, ps with
  | S k', p :: rest =>
      storeAfter repo rest k' (snd (Permissions_Create repo p db))
  | _, _ => db
  end.

(** The error that the create number [k] of a list returns (counting from
    0), on the store that the creates before it have left. *)
Definition errorAt {DB} (repo : All DB) (ps : list Permission) (k : nat)
    (db : DB) : option error :=
  snd (fst (Permissions_Create repo (nth k ps zeroPermission)
              (storeAfter repo ps k db))).

(** The create number [k] is the first of the list to return an error,
    and the error is [e]. *)
Definition firstFailure {DB} (repo : All DB) (ps : list Permission)
    (db : DB) (k : nat) (e : error) : Prop :=
  k < List.length ps
  /\ errorAt repo ps k db = Some e
  /\ forall j, j < k -> errorAt repo ps j db = None.

(** No create of the list returns an error. *)
Definition noFailure {DB} (repo : All DB) (ps : list Permission) (db : DB)
  : Prop :=
  forall j, j < List.length ps -> errorAt repo ps j db = None.

(** A run of the creates of a list up to the first that returns an error,
    on the store alone: the error, the number of creates issued and the
    store that they leave. *)
Fixpoint createAll {DB} (repo : All DB) (ps : list Permission) (db : DB)
  : option error * nat * DB :=
  match ps with
  | [] => (None, 0, db)
  | p :: rest =>
      let '(r, db') := Permissions_Create repo p db in
      match snd r with
      | Some e => (Some e, 1, db')
      | None =>
          let '(err, n, db'') := createAll repo rest db' in
          (err, S n, db'')
      end
  end.

(** [r] is the outcome of an atomic attribution of the records [ps] from
    the world [w]: the error of the begin and the world as it was; or,
    the transaction begun, the error of the first create that fails, the
    creates up to this one between the begin and a rollback, and the store
    of before; or, no create failing, the error of the commit with the
    store of before, or no error, the creates of all the records between
    the begin and the commit, and the store that they have left. *)
Definition atomicOutcome {DB} (repo : All DB) (ps : list Permission)
    (w : World DB) (r : option error * World DB) : Prop :=
  (forall e, Tx_Begin repo (store w) = Some e -> r = (Some e, w))
  /\ (Tx_Begin repo (store w) = None ->
      (forall k e,
          firstFailure repo ps (store w) k e ->
          r = (Some e,
               {| store := store w;
                  trace := trace w ++ TxBegin :: map Created (firstn (S k) ps)
                                   ++ [TxRollback] |}))
      /\ (noFailure repo ps (store w) ->
          match Tx_Commit repo
                  (storeAfter repo ps (List.length ps) (store w)) with
          | Some e =>
              r = (Some e,
                   {| store := store w;
                      trace := trace w ++ TxBegin :: map Created ps
                                       ++ [TxRollback] |})
          | None =>
              r = (None,
                   {| store := storeAfter repo ps (List.length ps) (store w);
                      trace := trace w ++ TxBegin :: map Created ps
                                       ++ [TxCommit] |})
          end)).

(** The creates that a call has issued, when it is to create the records
    [ps] from the world [w] and has left the world [w']: none when the
    transaction has not begun; the records up to and including the first
    whose create fails; all the records when no create fails. *)
Definition createsIssued {DB} (repo : All DB) (ps : list Permission)
    (w w' : World DB) : Prop :=
  (Tx_Begin repo (store w) <> None ->
   created (trace w') = created (trace w))
  /\ (Tx_Begin repo (store w) = None ->
      (forall k e,
          firstFailure repo ps (store w) k e ->
          created (trace w') = created (trace w) ++ firstn (S k) ps)
      /\ (noFailure repo ps (store w) ->
          created (trace w') = created (trace w) ++ ps)).

(** The memory of the loops of [Attribute] that a create can reach or
    that the caller sees: [templates] is the slice [pa.Permissions] of the
    caller, [permission] the loop variable whose address goes to
    [Create]. *)
Record frame := {
  templates : list Permission;
  permission : Permission
}.

(** The inner loop of [Attribute] on this memory, by index, with [fuel]
    the number of indices left: the loop variable takes a copy of the
    element, its [RoleID] is set, [Create] gets its address and what
    [Create] has written through it is in the loop variable after the
    call. *)
Fixpoint Attribute_permissions_frame {DB}
    (repo : All DB) (roleID : string) (j fuel : nat) (f : frame)
  : M DB (option error * frame) :=
  match fuel with
  | 0 => fun w => ((None, f), w)
  | S fuel' =>
      fun w =>
        let f1 := {| templates := templates f;
                     permission := nth j (templates f) zeroPermission |} in
        let f2 := {| templates := templates f1;
                     permission := setRoleID (permission f1) roleID |} in
        let '(r, w') := Create repo (permission f2) w in
        let f3 := {| templates := templates f2; permission := fst r |} in
        match snd r with
        | Some err => ((Some err, f3), w')
        | None => Attribute_permissions_frame repo roleID (S j) fuel' f3 w'
        end
  end.

(** The outer loop of [Attribute] on this memory. *)
Fixpoint Attribute_roles_frame {DB}
    (repo : All DB) (rolesIDs : list string) (f : frame)
  : M DB (option error * frame) :=
  match rolesIDs with
  | [] => fun w => ((None, f), w)
  | roleID :: rest =>
      fun w =>
        let '(r, w') :=
          Attribute_permissions_frame repo roleID 0
            (List.length (templates f)) f w in
        match fst r with
        | Some e => ((Some e, snd r), w')
        | None => Attribute_roles_frame repo rest (snd r) w'
        end
  end.

(** The index of the first segment that is ["*"], the number of segments
    when there is none. *)
Fixpoint firstWildcard (parts : list string) : nat :=
  match parts with
  | [] => 0
  | part :: rest => if part =? "*" then 0 else S (firstWildcard rest)
  end.

(** The keys of a hierarchy as the specification words them, with a stop
    before any segment that is ["*"], the first one included: ["*"], then
    the first segments followed by ["::*"], for the lengths from 1 to the
    one before the first segment that is ["*"], then the hierarchy. *)
Definition PermissionMatches_claimed (rh : string) : list string :=
  if rh =? "*" then ["*"]
  else
    let parts := strings.Split rh "::" in
    "*" :: map (fun i => (strings.Join (firstn i parts) "::" ++ "::*")%string)
               (seq 1 (firstWildcard parts - 1))
        ++ [rh].

(** The same reading as a property of the result: [n] keys with a
    wildcard, none of the segments up to the index [n] being ["*"], the
    index 0 included. *)
Definition keysStopAtAnyWildcard (rh : string) : Prop :=
  let parts := strings.Split rh "::" in
  exists n,
    n < List.length parts
    /\ (forall i, i <= n -> nth i parts "" <> "*")
    /\ (S n = List.length parts \/ nth (S n) parts "" = "*")
    /\ PermissionMatches rh =
       "*" :: map (fun i => (strings.Join (firstn i parts) "::" ++ "::*")%string)
                  (seq 1 n)
           ++ [rh].

(* ================================================================= *)
(** ** A store in memory, for the scenarios *)

Module mem.

Record DB := {
  permissions : list Permission;
  service_accounts : list ServiceAccount.t
}.

Definition zeroServiceAccount : ServiceAccount.t :=
  {| ServiceAccount.ID := ""; ServiceAccount.Name := "";
     ServiceAccount.KeyID := ""; ServiceAccount.KeySecret := "";
     ServiceAccount.Email := ""; ServiceAccount.BaseRoleID := "" |}.

(** [SELECT ... FROM service_accounts WHERE email = ? LIMIT 1] into a
    fresh record: the first row with this email, the zero value when
    there is none. *)
Definition queryByEmail (email : string) (db : DB) : ServiceAccount.t :=
  match find (fun sa => ServiceAccount.Email sa =? email)
             (service_accounts db) with
  | Some sa => sa
  | None => zeroServiceAccount
  end.

(** [serviceAccounts.ForEmail] of the service accounts repository, on a
    store whose queries do not fail. *)
Definition ForEmail (email : string) (db : DB)
  : option ServiceAccount.t * option error :=
  let sa := queryByEmail email db in
  if ServiceAccount.ID sa =? "" then
    (None, Some ("Service Account not found for email " ++ email)%string)
  else (Some sa, None).

(** Modelled from the spec: [serviceAccounts.ForEmails], which is not part
    of the sources at hand.  It resolves the emails to their service
    accounts and fails the whole operation if the resolution fails for
    any account. *)
Fixpoint ForEmails (emails : list string) (db : DB)
  : list ServiceAccount.t * option error :=
  match emails with
  | [] => ([], None)
  | email :: rest =>
      match ForEmail email db with
      | (Some sa, None) =>
          match ForEmails rest db with
          | (sas, None) => (sa :: sas, None)
          | (_, Some err) => ([], Some err)
          end
      | (_, Some err) => ([], Some err)
      | (None, None) => ([], None)
      end
  end.

(** A create that appends the record to the table, unless [fails] picks
    the record: then it returns an error and writes nothing. *)
Definition Create (fails : Permission -> bool) (p : Permission) (db : DB)
  : (Permission * option error) * DB :=
  if fails p then ((p, Some "write failed"), db)
  else ((p, None),
        {| permissions := permissions db ++ [p];
           service_accounts := service_accounts db |}).

(** A store whose transactions begin and commit unless it is told the
    error of the begin or of the commit. *)
Definition repoTx (fails : Permission -> bool)
    (beginErr commitErr : option error) : All DB :=
  Build_All (Create fails) ForEmails
            (fun _ => beginErr) (fun _ => commitErr).

Definition repo (fails : Permission -> bool) : All DB :=
  repoTx fails None None.

End mem.

(** The scenario of the specification: two roles, two templates, one
    permission stored beforehand, and a store whose second write fails. *)
Module scenario.

Definition template (action rh : string) : Permission :=
  {| ID := ""; RoleID := ""; Service := "iam"; OwnershipLevel := "RL";
     Action := action; ResourceHierarchy := rh; Alias := "" |}.

Definition t1 : Permission := template "get" "role::*".
Definition t2 : Permission := template "edit" "role::admin".

Definition stored : Permission :=
  {| ID := "p0"; RoleID := "r0"; Service := "iam"; OwnershipLevel := "RO";
     Action := "*"; ResourceHierarchy := "*"; Alias := "root" |}.

Definition account : ServiceAccount.t :=
  {| ServiceAccount.ID := "sa1"; ServiceAccount.Name := "b";
     ServiceAccount.KeyID := ""; ServiceAccount.KeySecret := "";
     ServiceAccount.Email := "b@x.com"; ServiceAccount.BaseRoleID := "r1" |}.

Definition w0 : World mem.DB :=
  Build_World
    {| mem.permissions := [stored]; mem.service_accounts := [account] |}
    [].

Definition pa : PermissionsAttribute.t :=
  {| PermissionsAttribute.RolesIDs := ["r1"; "r2"];
     PermissionsAttribute.PermissionsStrings := [];
     PermissionsAttribute.PermissionsAliases := [];
     PermissionsAttribute.Permissions := [t1; t2] |}.

Definition paEmails (emails : list string) : PermissionsAttributeToEmails.t :=
  {| PermissionsAttributeToEmails.Emails := emails;
     PermissionsAttributeToEmails.PermissionsStrings := [];
     PermissionsAttributeToEmails.PermissionsAliases := [];
     PermissionsAttributeToEmails.Permissions := [t1] |}.

(** The second write of the cross product is (r1, t2). *)
Definition secondWrite (p : Permission) : bool :=
  (RoleID p =? "r1") && (Action p =? "edit").

Definition noFailure (p : Permission) : bool := false.

(** The third scenario of the specification: a candidate, the held
    permission that grants it, and another grant. *)
Definition candidate : Permission :=
  fst (BuildPermission
         "maestro::RL::deploy::maestro::sniper-3d::na::sniper3d-red").
Definition held : Permission :=
  fst (BuildPermission "maestro::RL::deploy::maestro::sniper-3d::*").
Definition grant : Permission :=
  fst (BuildPermission "iam::RO::create::role").

End scenario.


(* ================================================================= *)
(** ** models/permission.go, the other functions *)

(** [pSl[i] = p], on a slice that has the index [i]. *)
Fixpoint setIndex (pSl : list Permission) (i : nat) (p : Permission)
  : list Permission :=
  match pSl, i with
  | [], _ => []
  | _ :: rest, 0 => p :: rest
  | q :: rest, S i' => q :: setIndex rest i' p
  end.

(** The loop of [BuildPermissions]: [for i := range ps], with [fuel] the
    number of indices left; on an error the slice is dropped and [nil] is
    returned with the error. *)
Fixpoint BuildPermissions_loop
    (ps : list string) (i fuel : nat) (pSl : list Permission)
  : list Permission * option error :=
  match fuel with
  | 0 => (pSl, None)
  | S fuel' =>
      let '(p, err) := BuildPermission (nth i ps "") in
      let pSl := setIndex pSl i p in
      match err with
      | Some e => ([], Some e)
      | None => BuildPermissions_loop ps (S i) fuel' pSl
      end
  end.

(** [BuildPermissions] calls [BuildPermission] for all strings. *)
Definition BuildPermissions (ps : list string) : list Permission * option error :=
  let pSl := repeat zeroPermission (List.length ps) in
  BuildPermissions_loop ps 0 (List.length ps) pSl.

Section WillIAM.

(** [constants.AppInfo.Name], the name of the service itself; the
    constants are outside this development. *)
Variable AppInfoName : string.

(** [buildWillIAMPermission] builds a permission in the format expected by
    the handlers of the service. *)
Definition buildWillIAMPermission
    (ro : OwnershipLevel.t) (action rh : string) : string :=
  (AppInfoName ++ "::" ++ ro ++ "::" ++ action ++ "::" ++ rh)%string.

Definition BuildWillIAMPermissionLender (action rh : string) : string :=
  buildWillIAMPermission OwnershipLevels.Lender action rh.

Definition BuildWillIAMPermissionOwner (action rh : string) : string :=
  buildWillIAMPermission OwnershipLevels.Owner action rh.

End WillIAM.

(* ================================================================= *)
(** ** Well-formed parts and hierarchies *)

(** [s] holds no ["::"]. *)
Definition noSep (s : string) : bool :=
  match strings.Index s "::" with
  | None => true
  | Some _ => false
  end.

(** [s] can stand before a separator: it holds no ["::"] and does not end
    with a colon, so that the first ["::"] of [s ++ "::" ++ rest] is the
    one that follows [s]. *)
Definition isPart (s : string) : bool := noSep (s ++ ":")%string.

(** The lists that a split on ["::"] gives: one part at least, the last
    part without ["::"], the parts before it able to stand before a
    separator. *)
Fixpoint isSplit (parts : list string) : bool :=
  match parts with
  | [] => false
  | [q] => noSep q
  | p :: rest => isPart p && isSplit rest
  end.

(** A hierarchy is closed by its wildcard: a segment ["*"] is the last
    segment. *)
Definition wildcardLast (parts : list string) : Prop :=
  forall i, nth i parts "" = "*" -> S i = List.length parts.

(** The error of the first string of a list that [BuildPermission]
    refuses. *)
Fixpoint firstError (ps : list string) : option error :=
  match ps with
  | [] => None
  | s :: rest =>
      match snd (BuildPermission s) with
      | Some e => Some e
      | None => firstError rest
      end
  end.

(** A permission as [BuildPermission] can give it: no id, role or alias,
    a service and an action that are parts and not empty, a valid
    ownership level, and a hierarchy without an empty segment. *)
Definition buildable (p : Permission) : Prop :=
  ID p = "" /\ RoleID p = "" /\ Alias p = ""
  /\ isPart (Service p) = true /\ Service p <> ""
  /\ (OwnershipLevel p = "RO" \/ OwnershipLevel p = "RL")
  /\ isPart (Action p) = true /\ Action p <> ""
  /\ ~ In "" (strings.Split (ResourceHierarchy p) "::").

(* ================================================================= *)
(** ** api/service_accounts_handlers.go *)

Module api.

(** A value of the decoded request body, [interface{}] in the source: a
    JSON string, or anything else (number, boolean, null, object,
    array). *)
Inductive value :=
| VString (s : string)
| VOther.

(** [v, ok := m[key].(string)]: the string and [true] when the key is
    there with a string, the empty string and [false] otherwise. *)
Definition asString (m : string -> option value) (key : string)
  : string * bool :=
  match m key with
  | Some (VString s) => (s, true)
  | _ => ("", false)
  end.

(** [usecases.ServiceAccounts], the two operations that the handler calls,
    by the error they return (the account they return is dropped). *)
Record ServiceAccounts := {
  CreateOAuth2Type : string -> string -> option error;
  CreateKeyPairType : string -> option error
}.

(** What the handler does to its collaborators, in order: the logger, the
    response writer (directly, or through the helper [Write] of the
    package), the use cases. *)
Inductive effect :=
| LogError (e : error)
| WriteHeader (status : nat)
| Write (status : nat) (body : string)
| CallCreateOAuth2Type (name email : string)
| CallCreateKeyPairType (name : string).

(** The body of a validation answer, [{ "error": { "<field>": "<reason>" } }]
    in the source, with its double quotes. *)
Definition quote : string := String (ascii_of_nat 34) EmptyString.

Definition errorBody (field reason : string) : string :=
  ("{ " ++ quote ++ "error" ++ quote ++ ": { " ++
   quote ++ field ++ quote ++ ": " ++ quote ++ reason ++ quote ++ " } }")%string.

Definition StatusCreated : nat := 201.
Definition StatusUnprocessableEntity : nat := 422.
Definition StatusInternalServerError : nat := 500.

(** [serviceAccountsCreateHandler].  [readErr] is the error of reading the
    body; [m] is the map after [json.Unmarshal], whose error the handler
    does not look at. *)
Definition serviceAccountsCreateHandler
    (sasUC : ServiceAccounts)
    (readErr : option error) (m : string -> option value) : list effect :=
  match readErr with
  | Some err => [LogError err; WriteHeader StatusInternalServerError]
  | None =>
      let '(name, ok) := asString m "name" in
      if negb ok || (name =? "") then
        [Write StatusUnprocessableEntity (errorBody "name" "required")]
      else
        let '(authenticationType, ok) := asString m "authenticationType" in
        if negb ok || (authenticationType =? "") then
          [Write StatusUnprocessableEntity
             (errorBody "authenticationType" "required")]
        else if authenticationType =? "oauth2" then
          let '(email, ok) := asString m "email" in
          if negb ok || (email =? "") then
            [Write StatusUnprocessableEntity (errorBody "email" "required")]
          else
            CallCreateOAuth2Type name email ::
            match CreateOAuth2Type sasUC name email with
            | Some err => [LogError err; WriteHeader StatusInternalServerError]
            | None => [WriteHeader StatusCreated]
            end
        else if authenticationType =? "keypair" then
          CallCreateKeyPairType name ::
          match CreateKeyPairType sasUC name with
          | Some err => [LogError err; WriteHeader StatusInternalServerError]
          | None => [WriteHeader StatusCreated]
          end
        else
          [Write StatusUnprocessableEntity
             (errorBody "authenticationType" "invalid")]
  end.

(** The use case calls of a run, and the statuses it answers. *)
Definition isCall (e : effect) : bool :=
  match e with
  | CallCreateOAuth2Type _ _ | CallCreateKeyPairType _ => true
  | _ => false
  end.

Definition statusOf (e : effect) : option nat :=
  match e with
  | WriteHeader st | Write st _ => Some st
  | _ => None
  end.

Fixpoint statuses (es : list effect) : list nat :=
  match es with
  | [] => []
  | e :: rest =>
      match statusOf e with
      | Some st => st :: statuses rest
      | None => statuses rest
      end
  end.

End api.

(* ================================================================= *)
(** ** The service accounts repository *)

Module serviceAccounts.

(** [serviceAccounts.ForEmail].  [query] stands for the database: for an
    email it gives what [SELECT ... WHERE email = ? LIMIT 1] leaves in the
    fresh record [sa] (the row, or the zero value when there is none) and
    the error of the query. *)
Definition ForEmail
    (query : string -> ServiceAccount.t * option error) (email : string)
  : option ServiceAccount.t * option error :=
  let '(sa, err) := query email in
  match err with
  | Some e => (None, Some e)
  | None =>
      if ServiceAccount.ID sa =? "" then
        (None, Some ("Service Account not found for email " ++ email)%string)
      else (Some sa, None)
  end.

(** The query on a table of accounts, which does not fail. *)
Definition tableQuery (table : list ServiceAccount.t) (email : string)
  : ServiceAccount.t * option error :=
  (mem.queryByEmail email
     {| mem.permissions := []; mem.service_accounts := table |}, None).

End serviceAccounts.

(* ================================================================= *)
(** ** Splitting and joining *)

Section SplitJoin.

Local Open Scope string_scope.

Lemma HasPrefix_drop (s prefix : string) :
  strings.HasPrefix s prefix = true ->
  s = prefix ++ strings.drop (String.length prefix) s.
Proof.
  revert s; induction prefix as [|a prefix IH]; intros s H; simpl in *.
  - now destruct s.
  - destruct s as [|b s]; [discriminate|].
    apply andb_true_iff in H as [Hab H].
    apply Ascii.eqb_eq in Hab; subst b.
    simpl. now rewrite <- IH.
Qed.

(** [Index] finds an instance of the separator: the string is what comes
    before it, the separator, and what comes after it. *)
Lemma Index_cut (s sep : string) (m : nat) :
  strings.Index s sep = Some m ->
  s = strings.take m s ++ sep ++ strings.drop (m + String.length sep) s.
Proof.
  revert m; induction s as [|c s IH]; intros m H;
    cbn [strings.Index] in H.
  - destruct (strings.HasPrefix "" sep) eqn:Hp; [|discriminate].
    injection H as <-. now apply HasPrefix_drop.
  - destruct (strings.HasPrefix (String c s) sep) eqn:Hp.
    + injection H as <-. now apply HasPrefix_drop.
    + destruct (strings.Index s sep) as [k|]; [|discriminate].
      injection H as <-. simpl. f_equal. now apply IH.
Qed.

Lemma HasPrefix_length (s prefix : string) :
  strings.HasPrefix s prefix = true ->
  String.length prefix <= String.length s.
Proof.
  revert s; induction prefix as [|a prefix IH]; intros s H; simpl in *.
  - lia.
  - destruct s as [|b s]; [discriminate|].
    apply andb_true_iff in H as [_ H]. apply IH in H. simpl. lia.
Qed.

Lemma Index_bound (s sep : string) (m : nat) :
  strings.Index s sep = Some m -> m + String.length sep <= String.length s.
Proof.
  revert m; induction s as [|c s IH]; intros m H;
    cbn [strings.Index] in H.
  - destruct (strings.HasPrefix "" sep) eqn:Hp; [|discriminate].
    injection H as <-. now apply HasPrefix_length.
  - destruct (strings.HasPrefix (String c s) sep) eqn:Hp.
    + injection H as <-. now apply HasPrefix_length.
    + destruct (strings.Index s sep) as [k|]; [|discriminate].
      injection H as <-. specialize (IH k eq_refl). simpl. lia.
Qed.

Lemma genSplit_nonempty (fuel : nat) (s sep : string) :
  strings.genSplit fuel s sep <> [].
Proof.
  destruct fuel; simpl; [discriminate|].
  destruct (strings.Index s sep); discriminate.
Qed.

Lemma Join_cons (x : string) (rest : list string) (sep : string) :
  rest <> [] ->
  strings.Join (x :: rest) sep = x ++ sep ++ strings.Join rest sep.
Proof. destruct rest; [congruence|reflexivity]. Qed.

(** Joining the pieces of a split with the separator gives the string
    back, whatever the number of rounds. *)
Lemma Join_genSplit (fuel : nat) (s sep : string) :
  strings.Join (strings.genSplit fuel s sep) sep = s.
Proof.
  revert s; induction fuel as [|fuel IH]; intros s; simpl; trivial.
  destruct (strings.Index s sep) as [m|] eqn:Hi; trivial.
  rewrite Join_cons by apply genSplit_nonempty.
  rewrite IH. symmetry. now apply Index_cut.
Qed.

Lemma Join_Split (s sep : string) :
  strings.Join (strings.Split s sep) sep = s.
Proof. apply Join_genSplit. Qed.

Lemma Split_nonempty (s sep : string) : strings.Split s sep <> [].
Proof. apply genSplit_nonempty. Qed.

Lemma length_drop (n : nat) (s : string) :
  String.length (strings.drop n s) = String.length s - n.
Proof.
  revert s; induction n as [|n IH]; intros [|c s]; simpl; auto.
Qed.

(** [length s] rounds are enough: with more fuel the split is the same,
    so the last piece never holds a separator that was left uncut. *)
Lemma genSplit_fuel (fuel : nat) (s sep : string) :
  sep <> "" -> String.length s <= fuel ->
  strings.genSplit fuel s sep = strings.Split s sep.
Proof.
  intros Hsep. unfold strings.Split.
  remember (String.length s) as n eqn:Hn.
  assert (String.length s <= n) as Hle by lia. clear Hn.
  revert s fuel Hle.
  induction n as [|n IH]; intros s fuel Hle Hf.
  - destruct s; [|simpl in Hle; lia].
    destruct fuel; simpl; trivial.
    destruct sep; [congruence|reflexivity].
  - destruct fuel as [|fuel]; [lia|]. simpl.
    destruct (strings.Index s sep) as [m|] eqn:Hi; trivial.
    f_equal.
    pose proof (Index_bound _ _ _ Hi) as Hb.
    assert (0 < String.length sep) by (destruct sep; [congruence|simpl; lia]).
    assert (String.length (strings.drop (m + String.length sep) s) <= n)
      by (rewrite length_drop; lia).
    rewrite (IH _ fuel) by lia.
    symmetry. apply IH; lia.
Qed.

End SplitJoin.

(* ================================================================= *)
(** ** The permission string codec *)

Lemma anyEmpty_In (parts : list string) :
  anyEmpty parts = true <-> In "" parts.
Proof.
  induction parts as [|part rest IH]; simpl.
  - split; [discriminate|tauto].
  - destruct (String.eqb_spec part "") as [->|Hne].
    + tauto.
    + rewrite IH. split; [tauto|]. intros [H|H]; [congruence|trivial].
Qed.

Lemma validLevel_dec (ol : string) :
  negb (ol =? OwnershipLevels.Owner) && negb (ol =? OwnershipLevels.Lender)
  = true <-> ol <> "RO" /\ ol <> "RL".
Proof.
  unfold OwnershipLevels.Owner, OwnershipLevels.Lender.
  rewrite andb_true_iff, !negb_true_iff, !String.eqb_neq. tauto.
Qed.

(** The four outcomes of the validation, by the tests that lead to them. *)
Lemma ValidatePermission_cases (s : string) :
  let parts := strings.Split s "::" in
  (List.length parts < 4 /\
   ValidatePermission s = (false, Some errIncomplete))
  \/ (4 <= List.length parts /\
      (nth 1 parts "" <> "RO" /\ nth 1 parts "" <> "RL") /\
      ValidatePermission s = (false, Some errOwnershipLevel))
  \/ (4 <= List.length parts /\
      (nth 1 parts "" = "RO" \/ nth 1 parts "" = "RL") /\
      In "" parts /\
      ValidatePermission s = (false, Some errEmptyPart))
  \/ (4 <= List.length parts /\
      (nth 1 parts "" = "RO" \/ nth 1 parts "" = "RL") /\
      ~ In "" parts /\
      ValidatePermission s = (true, None)).
Proof.
  intros parts. unfold ValidatePermission. fold parts.
  destruct (Nat.ltb_spec (List.length parts) 4) as [Hlt|Hge]; [left; auto|].
  right.
  destruct (negb (nth 1 parts "" =? OwnershipLevels.Owner) &&
            negb (nth 1 parts "" =? OwnershipLevels.Lender)) eqn:Hol.
  - left. apply validLevel_dec in Hol. auto.
  - right.
    assert (nth 1 parts "" = "RO" \/ nth 1 parts "" = "RL") as Hvalid.
    { apply andb_false_iff in Hol as [H|H]; apply negb_false_iff in H;
        apply String.eqb_eq in H; auto. }
    destruct (anyEmpty parts) eqn:He.
    + left. apply anyEmpty_In in He. auto.
    + right. repeat split; auto.
      intros Hin. apply anyEmpty_In in Hin. congruence.
Qed.

(** C4.  [ValidatePermission] splits its argument on ["::"] and returns an
    error, with [false], exactly when the split has fewer than 4 parts, or
    the second part is neither ["RO"] nor ["RL"], or some part is the empty
    string.  The message names the rule that failed: the first of the
    three, in this order, that the string breaks.  In every other case the
    result is [true] with no error. *)
Theorem ValidatePermission_spec (s : string) :
  let parts := strings.Split s "::" in
  let tooShort := List.length parts < 4 in
  let badLevel := nth 1 parts "" <> "RO" /\ nth 1 parts "" <> "RL" in
  let emptyPart := In "" parts in
  ((exists err, ValidatePermission s = (false, Some err))
     <-> tooShort \/ badLevel \/ emptyPart)
  /\ (ValidatePermission s = (true, None)
     <-> ~ (tooShort \/ badLevel \/ emptyPart))
  /\ (ValidatePermission s = (false, Some errIncomplete) <-> tooShort)
  /\ (ValidatePermission s = (false, Some errOwnershipLevel)
     <-> ~ tooShort /\ badLevel)
  /\ (ValidatePermission s = (false, Some errEmptyPart)
     <-> ~ tooShort /\ ~ badLevel /\ emptyPart).
Proof.
  intros parts tooShort badLevel emptyPart.
  subst tooShort badLevel emptyPart.
  assert (errIncomplete <> errOwnershipLevel) as D1 by (vm_compute; discriminate).
  assert (errIncomplete <> errEmptyPart) as D2 by (vm_compute; discriminate).
  assert (errOwnershipLevel <> errEmptyPart) as D3 by (vm_compute; discriminate).
  destruct (ValidatePermission_cases s)
    as [(Hl & E)|[(Hl & Hb & E)|[(Hl & Hv & He & E)|(Hl & Hv & He & E)]]];
    fold parts in Hl, E |- *; try fold parts in Hb; try fold parts in Hv;
    try fold parts in He; rewrite E;
    repeat split; intros;
    repeat match goal with
      | H : exists _, _ |- _ => destruct H
      | H : _ /\ _ |- _ => destruct H
      | H : (_, _) = (_, _) |- _ => injection H as ?
      | H : Some _ = Some _ |- _ => injection H as ?
      end;
    try discriminate; try congruence; try lia; try tauto; eauto;
    try (exfalso; lia);
    try (destruct Hv; exfalso; tauto);
    try (intros [?|[[? ?]|?]]; solve [lia | destruct Hv; congruence | tauto]).
  exfalso. destruct H as [H|[[H1 H2]|H]]; [lia| |tauto].
  destruct Hv; congruence.
Qed.

(** C5.  A string that splits on ["::"] into at least 4 parts, none of them
    empty, the second one a valid ownership code, is built into a
    permission whose [String()] is the string itself.  With exactly 4 parts
    the hierarchy is the fourth part; with more, it is the parts from the
    fourth on, joined again with ["::"]. *)
Theorem BuildPermission_roundtrip (s : string) :
  let parts := strings.Split s "::" in
  4 <= List.length parts ->
  nth 1 parts "" = "RO" \/ nth 1 parts "" = "RL" ->
  ~ In "" parts ->
  exists p,
    BuildPermission s = (p, None)
    /\ Permission_String p = s
    /\ Service p = nth 0 parts ""
    /\ OwnershipLevel p = nth 1 parts ""
    /\ Action p = nth 2 parts ""
    /\ ResourceHierarchy p = strings.Join (skipn 3 parts) "::".
Proof.
  intros parts Hlen Hol Hne.
  destruct (ValidatePermission_cases s)
    as [(Hl & E)|[(Hl & Hb & E)|[(Hl & Hv & He & E)|(Hl & Hv & He & E)]]];
    fold parts in Hl; try fold parts in Hb; try fold parts in He;
    try lia; try tauto.
  pose proof (Join_Split s "::") as Hj.
  unfold BuildPermission. rewrite E. cbn [negb].
  fold parts in Hj |- *. clearbody parts.
  destruct parts as [|a [|b [|c [|d rest]]]]; simpl in Hlen; try lia.
  eexists. split; [reflexivity|]. split; [|auto].
  rewrite <- Hj. reflexivity.
Qed.

(** The first scenario of the specification, a string of exactly 4 parts. *)
Lemma BuildPermission_roundtrip_witness :
  exists p,
    BuildPermission "iam::RO::create::role" = (p, None)
    /\ Permission_String p = "iam::RO::create::role"
    /\ Service p = "iam"
    /\ OwnershipLevel p = "RO"
    /\ Action p = "create"
    /\ ResourceHierarchy p = "role".
Proof.
  apply (BuildPermission_roundtrip "iam::RO::create::role").
  - vm_compute. lia.
  - left. reflexivity.
  - vm_compute. intuition discriminate.
Defined.

(* ================================================================= *)
(** ** Resource hierarchies *)

Section Hierarchies.

Implicit Types self other parts : list string.

Lemma skipn_nth (A : Type) (d : A) (l : list A) (i : nat) :
  i < List.length l -> skipn i l = nth i l d :: skipn (S i) l.
Proof.
  revert i; induction l as [|x l IH]; intros i Hi; simpl in Hi; [lia|].
  destruct i as [|i]; [reflexivity|].
  cbn [skipn nth]. apply IH. lia.
Qed.

(** The loop by index is the walk over what is left of the two
    sequences. *)
Lemma Contains_loop_walk self other (fuel i : nat) :
  i + fuel = List.length other ->
  Contains_loop self other i fuel = walk (skipn i self) (skipn i other).
Proof.
  revert i; induction fuel as [|fuel IH]; intros i Hi.
  - rewrite Nat.add_0_r in Hi. subst i.
    rewrite skipn_all. now destruct (skipn _ self).
  - cbn [Contains_loop].
    rewrite (skipn_nth _ "" other i) by lia.
    destruct (Nat.leb_spec (List.length self) i) as [Hle|Hlt].
    + now rewrite skipn_all2.
    + rewrite (skipn_nth _ "" self i) by lia. cbn [walk].
      destruct (nth i self "" =? "*"); [reflexivity|].
      rewrite (String.eqb_sym (nth i other "")).
      destruct (nth i self "" =? nth i other ""); cbn [negb];
        [|reflexivity].
      apply IH. lia.
Qed.

Lemma Contains_walk (rh orh : string) :
  let self := strings.Split rh "::" in
  let other := strings.Split orh "::" in
  Contains rh orh =
    if (List.length other <? List.length self)%nat then false
    else walk self other.
Proof.
  intros self other. unfold Contains, buildResourceHierarchy.
  cbn [size hierarchy]. fold self other.
  destruct (List.length other <? List.length self)%nat; [reflexivity|].
  now rewrite Contains_loop_walk.
Qed.

Lemma walk_refl self : walk self self = true.
Proof.
  induction self as [|s self IH]; cbn [walk]; [reflexivity|].
  destruct (s =? "*"); [reflexivity|]. now rewrite String.eqb_refl.
Qed.

(** A ["*"] of [self], at an index that [other] has, with equal
    segments before it, ends the walk with [true]. *)
Lemma walk_wildcard self other (k : nat) :
  k < List.length other ->
  nth k self "" = "*" ->
  firstn k self = firstn k other ->
  walk self other = true.
Proof.
  revert self other; induction k as [|k IH]; intros self other Hk Hs Hf;
    destruct other as [|o other]; simpl in Hk; try lia;
    destruct self as [|s self]; cbn [nth] in Hs; try discriminate.
  - subst s. reflexivity.
  - cbn [firstn] in Hf. injection Hf as -> Hf. cbn [walk].
    destruct (o =? "*"); [reflexivity|]. rewrite String.eqb_refl.
    apply IH; trivial. lia.
Qed.

(** A walk that ends with [true] has either met a ["*"] of [self], or
    gone through the whole of [other], which [self] then begins with. *)
Lemma walk_true self other :
  walk self other = true ->
  (exists k, k < List.length self /\ k < List.length other /\
             nth k self "" = "*" /\ firstn k self = firstn k other)
  \/ (List.length other <= List.length self /\
      firstn (List.length other) self = other).
Proof.
  revert self; induction other as [|o other IH]; intros self H.
  - right. split; [simpl; lia|reflexivity].
  - destruct self as [|s self]; cbn [walk] in H; [discriminate|].
    destruct (String.eqb_spec s "*") as [->|Hs].
    + left. exists 0. simpl. repeat split; trivial; lia.
    + destruct (String.eqb_spec s o) as [->|Hso]; [|discriminate].
      destruct (IH _ H) as [(k & H1 & H2 & H3 & H4)|(H1 & H2)].
      * left. exists (S k). simpl. repeat split; try lia; trivial.
        now rewrite H4.
      * right. simpl. split; [lia|]. now rewrite H2.
Qed.

(** The closed form of the containment test. *)
Lemma Contains_true_iff (rh orh : string) :
  let self := strings.Split rh "::" in
  let other := strings.Split orh "::" in
  Contains rh orh = true <->
  List.length self <= List.length other /\
  (self = other \/
   exists k, k < List.length self /\ nth k self "" = "*" /\
             firstn k self = firstn k other).
Proof.
  intros self other. rewrite Contains_walk. fold self other.
  destruct (Nat.ltb_spec (List.length other) (List.length self)) as [Hlt|Hle].
  - split; [discriminate|]. intros [H _]. lia.
  - split.
    + intros H. split; [trivial|].
      destruct (walk_true _ _ H) as [(k & H1 & H2 & H3 & H4)|(H1 & H2)].
      * right. exists k. auto.
      * left. rewrite <- H2. symmetry. apply firstn_all2. lia.
    + intros [_ [->|(k & H1 & H2 & H3)]].
      * apply walk_refl.
      * apply (walk_wildcard _ _ k); trivial. lia.
Qed.

(** The loop of [PermissionMatches] appends the wildcard-terminated
    prefixes of the lengths [i], [i+1], ... up to the first index whose
    segment is ["*"], or to the end of its fuel. *)
Lemma PermissionMatches_loop_spec parts (fuel i : nat) (ret : list string) :
  exists k,
    k <= fuel
    /\ (forall j, i <= j < i + k -> nth j parts "" <> "*")
    /\ (k = fuel \/ nth (i + k) parts "" = "*")
    /\ PermissionMatches_loop parts i fuel ret =
       ret ++ map (fun j => (strings.Join (firstn j parts) "::" ++ "::*")%string)
                  (seq i k).
Proof.
  revert i ret; induction fuel as [|fuel IH]; intros i ret.
  - exists 0. simpl. rewrite app_nil_r. repeat split; auto. intros; lia.
  - cbn [PermissionMatches_loop].
    destruct (String.eqb_spec (nth i parts "") "*") as [Hs|Hs].
    + exists 0. simpl. rewrite app_nil_r, Nat.add_0_r.
      repeat split; auto; [lia|intros; lia].
    + destruct (IH (S i) (ret ++ [(strings.Join (firstn i parts) "::" ++ "::*")%string]))
        as (k & Hk & Hall & Hend & E).
      exists (S k). rewrite E. cbn [seq map]. rewrite <- app_assoc.
      repeat split; [lia| |].
      * intros j Hj. destruct (Nat.eq_dec j i) as [->|Hne]; [trivial|].
        apply Hall. lia.
      * destruct Hend as [->|Hend]; [now left|right].
        now rewrite Nat.add_succ_r.
Qed.

End Hierarchies.

(** C2, as the specification words it, fails: the segments of ["a::b"] are
    a prefix of those of ["a::b::c"], and [Contains] answers [false]. *)
Lemma Contains_prefix_counterexample :
  ~ (Contains "a::b" "a::b::c" = true <->
     isPrefix (strings.Split "a::b" "::") (strings.Split "a::b::c" "::") = true
     \/ wildcardWithin (strings.Split "a::b" "::")
                       (strings.Split "a::b::c" "::")).
Proof.
  intros [_ H].
  assert (Contains "a::b" "a::b::c" = true) as E by (apply H; left; reflexivity).
  vm_compute in E. discriminate.
Qed.

(** C2, amended.  [Contains(self, other)] is true exactly when [self] has
    no more segments than [other] and either the two segment sequences are
    equal or [self] wildcard-terminates within [other].  It is computed as
    the specification says: [false] when [self] has more segments than
    [other], otherwise the walk over [other]'s segments.  So
    [Contains("a::*", "a::b::c")] is true and [Contains("a::b", "a::b::c")]
    is false: a shorter [self] without a wildcard contains nothing. *)
Theorem Contains_spec (rh orh : string) :
  let self := strings.Split rh "::" in
  let other := strings.Split orh "::" in
  (Contains rh orh = true <->
     List.length self <= List.length other /\
     (self = other \/ wildcardWithin self other))
  /\ Contains rh orh =
       (if (List.length other <? List.length self)%nat then false
        else walk self other)
  /\ Contains "a::*" "a::b::c" = true
  /\ Contains "a::b" "a::b::c" = false.
Proof.
  intros self other. split; [|split; [apply Contains_walk|split; reflexivity]].
  rewrite Contains_true_iff. fold self other. unfold wildcardWithin.
  split; intros [Hlen [E|(k & H1 & H2 & H3)]]; (split; [trivial|]); auto;
    right; exists k; repeat split; trivial; try lia.
  destruct (Nat.lt_ge_cases k (List.length self)) as [Hk|Hk]; [trivial|].
  rewrite nth_overflow in H2 by trivial. discriminate.
Qed.

(** C10.  A [self] with strictly more segments than [other] contains
    nothing, wildcard or not: the sizes are compared before any segment is
    looked at.  So [Contains("a::*", "a")] is false. *)
Theorem Contains_longer (rh orh : string) :
  (List.length (strings.Split orh "::") < List.length (strings.Split rh "::") ->
   Contains rh orh = false)
  /\ Contains "a::*" "a" = false.
Proof.
  split; [|reflexivity].
  intros Hlt. unfold Contains, buildResourceHierarchy. cbn [size].
  apply Nat.ltb_lt in Hlt. now rewrite Hlt.
Qed.

Lemma Contains_longer_witness :
  List.length (strings.Split "a" "::") < List.length (strings.Split "a::*::c" "::")
  /\ Contains "a::*::c" "a" = false.
Proof.
  split.
  - vm_compute. lia.
  - apply (proj1 (Contains_longer "a::*::c" "a")). vm_compute. lia.
Defined.

Lemma firstWildcard_stop (parts : list string) (n : nat) :
  n < List.length parts ->
  (forall i, i <= n -> nth i parts "" <> "*") ->
  S n = List.length parts \/ nth (S n) parts "" = "*" ->
  firstWildcard parts = S n.
Proof.
  revert n; induction parts as [|part rest IH]; intros n Hn Hall Hend;
    [simpl in Hn; lia|].
  cbn [firstWildcard].
  destruct (String.eqb_spec part "*") as [->|_];
    [exfalso; apply (Hall 0); [lia|reflexivity]|].
  f_equal. destruct n as [|n].
  - destruct rest as [|part' rest]; [reflexivity|].
    destruct Hend as [Hend|Hend]; [discriminate|].
    cbn in Hend. subst part'. cbn. reflexivity.
  - apply IH.
    + simpl in Hn. lia.
    + intros i Hi. apply (Hall (S i)). lia.
    + destruct Hend as [Hend|Hend]; [left; simpl in Hend; lia|now right].
Qed.

(** On a hierarchy whose first segment is not ["*"], the keys are those
    that the specification words. *)
Lemma PermissionMatches_claimed_agree (rh : string) :
  nth 0 (strings.Split rh "::") "" <> "*" ->
  PermissionMatches rh = PermissionMatches_claimed rh.
Proof.
  intros H0. unfold PermissionMatches_claimed, PermissionMatches.
  destruct (String.eqb_spec rh "*") as [->|Hrh]; [reflexivity|].
  set (parts := strings.Split rh "::") in *.
  destruct (PermissionMatches_loop_spec parts (List.length parts - 1) 1 ["*"])
    as (k & Hk & Hall & Hend & E).
  rewrite E.
  assert (0 < List.length parts) as Hpos.
  { pose proof (Split_nonempty rh "::") as Hne. fold parts in Hne.
    destruct parts; [congruence|simpl; lia]. }
  rewrite (firstWildcard_stop parts k).
  - now rewrite Nat.sub_succ, Nat.sub_0_r.
  - lia.
  - intros [|i] Hi; [exact H0|]. apply Hall. lia.
  - destruct Hend as [->|Hend]; [left; lia|now right].
Qed.

(** C6, as the specification words it, fails: the loop does not look at
    the segment of index 0, so a hierarchy that begins with ["*"] and goes
    on has keys that go past this wildcard.  For ["*::a::b"] the keys are
    ["*"], ["*::*"], ["*::a::*"] and the hierarchy, where a stop before
    any segment that is ["*"] leaves ["*"] and the hierarchy only.  On
    hierarchies whose first segment is not ["*"] the two agree, as for
    ["x::y::*"]. *)
Lemma PermissionMatches_claimed_counterexample :
  PermissionMatches "*::a::b" = ["*"; "*::*"; "*::a::*"; "*::a::b"]
  /\ PermissionMatches_claimed "*::a::b" = ["*"; "*::a::b"]
  /\ PermissionMatches "*::a::b" <> PermissionMatches_claimed "*::a::b"
  /\ ~ keysStopAtAnyWildcard "*::a::b"
  /\ PermissionMatches "x::y::*" = PermissionMatches_claimed "x::y::*".
Proof.
  split; [reflexivity|]. split; [reflexivity|].
  split; [vm_compute; discriminate|]. split; [|reflexivity].
  intros (n & _ & Hall & _). apply (Hall 0); [lia|reflexivity].
Qed.

(** C6, amended.  [PermissionMatches(rh)] is ["*"] alone when [rh] is ["*"].
    Otherwise it is ["*"], then for the lengths 1, 2, ..., [n] the first
    segments of [rh] of that length followed by ["::*"], then [rh] itself;
    [n] is where the enumeration stops: the segments at the indices 1 to
    [n] are not ["*"], and either the segment at index [n+1] is ["*"] or
    [rh] has [n+1] segments.  (The segment at index 0 is not examined.)
    So ["x::y::z"] gives ["*"], ["x::*"], ["x::y::*"], ["x::y::z"], and
    the open hierarchy ["maestro::sniper-3d::*"] gives ["*"],
    ["maestro::*"] and itself. *)
Theorem PermissionMatches_spec (rh : string) :
  let parts := strings.Split rh "::" in
  (exists n,
    n < List.length parts
    /\ (forall i, 1 <= i <= n -> nth i parts "" <> "*")
    /\ (S n = List.length parts \/ nth (S n) parts "" = "*")
    /\ PermissionMatches rh =
       if rh =? "*" then ["*"]
       else
         "*" :: map (fun i => (strings.Join (firstn i parts) "::" ++ "::*")%string)
                    (seq 1 n)
             ++ [rh])
  /\ PermissionMatches "*" = ["*"]
  /\ PermissionMatches "x::y::z" = ["*"; "x::*"; "x::y::*"; "x::y::z"]
  /\ PermissionMatches "maestro::sniper-3d::*" =
     ["*"; "maestro::*"; "maestro::sniper-3d::*"].
Proof.
  intros parts. split; [|repeat split].
  unfold PermissionMatches. fold parts.
  assert (0 < List.length parts) as Hpos.
  { pose proof (Split_nonempty rh "::") as Hne. fold parts in Hne.
    destruct parts; [congruence|simpl; lia]. }
  destruct (String.eqb_spec rh "*") as [->|Hrh].
  - exists 0. repeat split; trivial; [intros; lia|now left].
  - destruct (PermissionMatches_loop_spec parts (List.length parts - 1) 1 ["*"])
      as (k & Hk & Hall & Hend & E).
    exists k. rewrite E. repeat split; [lia| |].
    + intros i Hi. apply Hall. lia.
    + destruct Hend as [->|Hend]; [left; lia|now right].
Qed.

(* ================================================================= *)
(** ** The authorization check *)

(** The two tests of one round of the loop of [IsPresent] say that the
    held permission of this round satisfies the candidate. *)
Lemma IsPresent_round (h p : Permission) :
  (negb (Service h =? "*") && negb (Service h =? Service p))
  || (negb (Action h =? "*") && negb (Action h =? Action p))
  || Less (OwnershipLevel h) (OwnershipLevel p) = false
  /\ Contains (ResourceHierarchy h) (ResourceHierarchy p) = true
  <-> satisfies h p.
Proof.
  unfold satisfies.
  rewrite !orb_false_iff, !andb_false_iff, !negb_false_iff, !String.eqb_eq.
  tauto.
Qed.

(** One more held permission in front: the candidate is present when
    this one satisfies it, or when it is present in the rest. *)
Lemma IsPresent_cons (p pp : Permission) (rest : list Permission) :
  IsPresent p (pp :: rest) = true <->
  satisfies pp p \/ IsPresent p rest = true.
Proof.
  cbn [IsPresent]. pose proof (IsPresent_round pp p) as R.
  destruct ((negb (Service pp =? "*") && negb (Service pp =? Service p))
            || (negb (Action pp =? "*") && negb (Action pp =? Action p))
            || Less (OwnershipLevel pp) (OwnershipLevel p)) eqn:Hskip.
  - split; [now right|]. intros [Hs|H]; [|trivial].
    apply R in Hs. destruct Hs; discriminate.
  - destruct (Contains (ResourceHierarchy pp) (ResourceHierarchy p)) eqn:Hc.
    + split; [|reflexivity]. intros _. left. apply R. auto.
    + split; [now right|]. intros [Hs|H]; [|trivial].
      apply R in Hs. destruct Hs; discriminate.
Qed.

(** A held permission that satisfies the candidate makes it present,
    wherever it stands in the list. *)
Lemma IsPresent_In (p h : Permission) (held : list Permission) :
  In h held -> satisfies h p -> IsPresent p held = true.
Proof.
  induction held as [|pp rest IH]; intros Hin Hs; [destruct Hin|].
  apply IsPresent_cons. destruct Hin as [->|Hin]; [now left|right; auto].
Qed.

(** C1.  [IsPresent(p, H)] is true exactly when some single held
    permission [h] of [H] has the service of [p] or ["*"], the action of
    [p] or ["*"], an ownership level that is not less than that of [p], and
    a resource hierarchy that contains that of [p]: the four conditions on
    one and the same [h]. *)
Theorem IsPresent_spec (p : Permission) (held : list Permission) :
  IsPresent p held = true <->
  exists h, In h held
    /\ (Service h = "*" \/ Service h = Service p)
    /\ (Action h = "*" \/ Action h = Action p)
    /\ Less (OwnershipLevel h) (OwnershipLevel p) = false
    /\ Contains (ResourceHierarchy h) (ResourceHierarchy p) = true.
Proof.
  change (IsPresent p held = true <-> exists h, In h held /\ satisfies h p).
  split.
  - induction held as [|pp rest IH]; [discriminate|].
    intros H. apply IsPresent_cons in H as [Hs|H].
    + exists pp. split; [now left|trivial].
    + destruct (IH H) as (h & Hin & Hs). exists h. split; [now right|trivial].
  - intros (h & Hin & Hs). now apply (IsPresent_In p h).
Qed.

(** C7.  [IsPresent] is monotone in the held permissions: a candidate that
    is present in [H] is present in every [H'] that has all the elements
    of [H], whatever else it has.  And the order of the held list does not
    change the result. *)
Theorem IsPresent_monotone (p : Permission) (H H' : list Permission) :
  (incl H H' -> IsPresent p H = true -> IsPresent p H' = true)
  /\ (Permutation H H' -> IsPresent p H = IsPresent p H').
Proof.
  assert (forall A B, incl A B -> IsPresent p A = true -> IsPresent p B = true)
    as Hmono.
  { induction A as [|pp rest IH]; intros B Hincl HA; [discriminate|].
    apply IsPresent_cons in HA as [Hs|HA].
    - apply (IsPresent_In p pp); trivial. apply Hincl. now left.
    - apply IH; trivial. intros x Hx. apply Hincl. now right. }
  split; [apply Hmono|].
  intros Hperm.
  destruct (IsPresent p H) eqn:E1; destruct (IsPresent p H') eqn:E2; trivial.
  - assert (IsPresent p H' = true); [|congruence].
    apply (Hmono H H'); trivial.
    intros x Hx. now apply (Permutation_in _ Hperm).
  - assert (IsPresent p H = true); [|congruence].
    apply (Hmono H' H); trivial.
    intros x Hx. now apply (Permutation_in _ (Permutation_sym Hperm)).
Qed.

(** The third scenario of the specification: the held permission
    ["maestro::RL::deploy::maestro::sniper-3d::*"] grants the candidate
    ["maestro::RL::deploy::maestro::sniper-3d::na::sniper3d-red"], and
    still does with another grant put in front of it, in either order. *)
Lemma IsPresent_monotone_witness :
  IsPresent scenario.candidate [scenario.held] = true
  /\ IsPresent scenario.candidate [scenario.grant; scenario.held] = true
  /\ IsPresent scenario.candidate [scenario.held; scenario.grant] =
     IsPresent scenario.candidate [scenario.grant; scenario.held].
Proof.
  split; [reflexivity|]. split.
  - apply (proj1 (IsPresent_monotone scenario.candidate
                    [scenario.held] [scenario.grant; scenario.held])).
    + intros x [<-|[]]. right. now left.
    + reflexivity.
  - apply (proj2 (IsPresent_monotone scenario.candidate
                    [scenario.held; scenario.grant]
                    [scenario.grant; scenario.held])).
    apply perm_swap.
Defined.

(* ================================================================= *)
(** ** The attribution workflow *)

Section Attribution.

Context {DB : Type} (repo : All DB).

Lemma creates_app (l1 l2 : list Permission) (w : World DB) :
  creates repo (l1 ++ l2) w =
    match fst (creates repo l1 w) with
    | Some e => (Some e, snd (creates repo l1 w))
    | None => creates repo l2 (snd (creates repo l1 w))
    end.
Proof.
  revert w; induction l1 as [|p l1 IH]; intros w; cbn [creates app].
  - reflexivity.
  - destruct (Create repo p w) as [r w1]. destruct (snd r); [reflexivity|].
    apply IH.
Qed.

(** The inner loop creates the templates with [RoleID] set, in order. *)
Lemma Attribute_permissions_creates
    (roleID : string) (permissions : list Permission) (w : World DB) :
  Attribute_permissions repo roleID permissions w =
    creates repo (map (fun p => setRoleID p roleID) permissions) w.
Proof.
  revert w; induction permissions as [|p rest IH]; intros w;
    cbn [Attribute_permissions creates map]; [reflexivity|].
  unfold bind. destruct (Create repo (setRoleID p roleID) w) as [r w1].
  destruct (snd r); [reflexivity|]. apply IH.
Qed.

(** The two loops of [Attribute] create the cross product, role-major. *)
Lemma Attribute_roles_creates
    (rolesIDs : list string) (permissions : list Permission) (w : World DB) :
  Attribute_roles repo rolesIDs permissions w =
    creates repo (cross rolesIDs permissions) w.
Proof.
  revert w; induction rolesIDs as [|roleID rest IH]; intros w;
    cbn [Attribute_roles]; [reflexivity|].
  change (cross (roleID :: rest) permissions)
    with (map (fun p => setRoleID p roleID) permissions ++ cross rest permissions).
  rewrite creates_app. unfold bind.
  rewrite Attribute_permissions_creates.
  destruct (creates repo _ w) as [[e|] w1]; cbn [fst snd]; [reflexivity|].
  apply IH.
Qed.

(** The loops of [AttributeToEmails] do the same with the base roles of
    the accounts. *)
Lemma AttributeToEmails_accounts_creates
    (sas : list ServiceAccount.t) (permissions : list Permission)
    (w : World DB) :
  AttributeToEmails_accounts repo sas permissions w =
    creates repo (cross (map ServiceAccount.BaseRoleID sas) permissions) w.
Proof.
  revert w; induction sas as [|sa rest IH]; intros w;
    cbn [AttributeToEmails_accounts]; [reflexivity|].
  change (cross (map ServiceAccount.BaseRoleID (sa :: rest)) permissions)
    with (map (fun p => setRoleID p (ServiceAccount.BaseRoleID sa)) permissions
          ++ cross (map ServiceAccount.BaseRoleID rest) permissions).
  rewrite creates_app. unfold bind.
  rewrite Attribute_permissions_creates.
  destruct (creates repo _ w) as [[e|] w1]; cbn [fst snd]; [reflexivity|].
  apply IH.
Qed.

Lemma errorAt_0 (p : Permission) (rest : list Permission) (db : DB) :
  errorAt repo (p :: rest) 0 db = snd (fst (Permissions_Create repo p db)).
Proof. reflexivity. Qed.

Lemma errorAt_S (p : Permission) (rest : list Permission) (j : nat) (db : DB) :
  errorAt repo (p :: rest) (S j) db =
  errorAt repo rest j (snd (Permissions_Create repo p db)).
Proof. reflexivity. Qed.

(** A run in the world is the run on the store, with the creates issued
    added to the trace. *)
Lemma creates_createAll (ps : list Permission) (w : World DB) :
  creates repo ps w =
    (fst (fst (createAll repo ps (store w))),
     {| store := snd (createAll repo ps (store w));
        trace := trace w ++
                 map Created
                   (firstn (snd (fst (createAll repo ps (store w)))) ps) |}).
Proof.
  revert w; induction ps as [|p rest IH]; intros w; cbn [creates createAll].
  - destruct w. cbn. now rewrite app_nil_r.
  - unfold Create.
    destruct (Permissions_Create repo p (store w)) as [r db] eqn:Ec.
    destruct (snd r) as [e|] eqn:Er; [reflexivity|].
    rewrite IH. cbn [store trace].
    destruct (createAll repo rest db) as [[err n] db']. cbn [fst snd firstn map].
    now rewrite <- app_assoc.
Qed.

(** The run on the store stops at the first create that fails. *)
Lemma createAll_spec (ps : list Permission) (db : DB) :
  let r := createAll repo ps db in
  let n := snd (fst r) in
  n <= List.length ps
  /\ snd r = storeAfter repo ps n db
  /\ match fst (fst r) with
     | Some e =>
         0 < n /\ errorAt repo ps (n - 1) db = Some e
         /\ forall j, j < n - 1 -> errorAt repo ps j db = None
     | None =>
         n = List.length ps /\ forall j, j < n -> errorAt repo ps j db = None
     end.
Proof.
  revert db; induction ps as [|p rest IH]; intros db; cbn [createAll].
  - cbn. repeat split; trivial. intros; lia.
  - destruct (Permissions_Create repo p db) as [r db'] eqn:Ec.
    destruct (snd r) as [e|] eqn:Er.
    + cbn [fst snd List.length storeAfter]. rewrite Ec. cbn [snd].
      split; [lia|]. split; [now destruct rest|]. split; [lia|]. split.
      * cbn [Nat.sub]. rewrite errorAt_0, Ec. exact Er.
      * intros j Hj. lia.
    + specialize (IH db').
      destruct (createAll repo rest db') as [[err n] db''].
      cbn [fst snd] in IH |- *. destruct IH as (Hn & Hs & He).
      cbn [List.length storeAfter]. rewrite Ec. cbn [snd].
      split; [lia|]. split; [exact Hs|].
      assert (forall j, errorAt repo (p :: rest) (S j) db =
                        errorAt repo rest j db') as HS
        by (intros j; rewrite errorAt_S, Ec; reflexivity).
      assert (errorAt repo (p :: rest) 0 db = None) as H0
        by (rewrite errorAt_0, Ec; exact Er).
      destruct err as [e|].
      * destruct He as (Hpos & Hat & Hbefore). split; [lia|]. split.
        -- replace (S n - 1) with (S (n - 1)) by lia. now rewrite HS.
        -- intros [|j] Hj; [exact H0|]. rewrite HS. apply Hbefore. lia.
      * destruct He as (-> & Hall). split; [reflexivity|].
        intros [|j] Hj; [exact H0|]. rewrite HS. apply Hall. lia.
Qed.

(** The first failure, when there is one, is where the run stops. *)
Lemma createAll_firstFailure
    (ps : list Permission) (db : DB) (k : nat) (e : error) :
  firstFailure repo ps db k e ->
  createAll repo ps db = (Some e, S k, storeAfter repo ps (S k) db).
Proof.
  intros (Hk & Hat & Hbefore).
  pose proof (createAll_spec ps db) as H. cbv zeta in H.
  destruct (createAll repo ps db) as [[err n] db']. cbn [fst snd] in H.
  destruct H as (Hn & Hs & He). destruct err as [e'|].
  - destruct He as (Hpos & Hat' & Hbefore').
    assert (n - 1 = k) as Hnk.
    { destruct (Nat.lt_trichotomy (n - 1) k) as [Hlt|[Heq|Hgt]]; trivial.
      - rewrite (Hbefore _ Hlt) in Hat'. discriminate.
      - rewrite (Hbefore' _ Hgt) in Hat. discriminate. }
    rewrite Hnk in Hat'. assert (n = S k) as -> by lia. congruence.
  - destruct He as (-> & Hall). rewrite (Hall _ Hk) in Hat. discriminate.
Qed.

Lemma createAll_noFailure (ps : list Permission) (db : DB) :
  noFailure repo ps db ->
  createAll repo ps db =
    (None, List.length ps, storeAfter repo ps (List.length ps) db).
Proof.
  intros Hno.
  pose proof (createAll_spec ps db) as H. cbv zeta in H.
  destruct (createAll repo ps db) as [[err n] db']. cbn [fst snd] in H.
  destruct H as (Hn & Hs & He). destruct err as [e'|].
  - destruct He as (Hpos & Hat' & _).
    rewrite Hno in Hat' by lia. discriminate.
  - destruct He as (-> & _). now rewrite Hs.
Qed.

(** A list of creates has a first failure, or none. *)
Lemma failure_or_not (ps : list Permission) (db : DB) :
  (exists k e, firstFailure repo ps db k e) \/ noFailure repo ps db.
Proof.
  pose proof (createAll_spec ps db) as H. cbv zeta in H.
  destruct (createAll repo ps db) as [[err n] db']. cbn [fst snd] in H.
  destruct H as (Hn & Hs & He). destruct err as [e|].
  - destruct He as (Hpos & Hat & Hbefore). left. exists (n - 1), e.
    repeat split; trivial. lia.
  - destruct He as (-> & Hall). right. exact Hall.
Qed.

(** The world after a transaction. *)
Lemma WithPGTx_run (fn : All DB -> M DB (option error)) (w : World DB) :
  let w1 := {| store := store w; trace := trace w ++ [TxBegin] |} in
  let rollback :=
    {| store := store w; trace := trace (snd (fn repo w1)) ++ [TxRollback] |} in
  WithPGTx repo fn w =
    match Tx_Begin repo (store w) with
    | Some e => (Some e, w)
    | None =>
        match fst (fn repo w1) with
        | Some e => (Some e, rollback)
        | None =>
            match Tx_Commit repo (store (snd (fn repo w1))) with
            | Some e => (Some e, rollback)
            | None =>
                (None, {| store := store (snd (fn repo w1));
                          trace := trace (snd (fn repo w1)) ++ [TxCommit] |})
            end
        end
    end.
Proof.
  intros w1 rollback. unfold WithPGTx, emit. fold w1.
  destruct (Tx_Begin repo (store w)); [reflexivity|].
  subst rollback.
  destruct (fn repo w1) as [[e|] w2]; cbn [fst snd store trace];
    [reflexivity|].
  destruct (Tx_Commit repo (store w2)); reflexivity.
Qed.

(** A transaction whose work is a sequence of creates has the outcome of
    an atomic attribution. *)
Lemma WithPGTx_atomic (ps : list Permission) (w : World DB) :
  atomicOutcome repo ps w (WithPGTx repo (fun repo => creates repo ps) w).
Proof.
  unfold atomicOutcome. rewrite WithPGTx_run. cbv zeta.
  set (w1 := {| store := store w; trace := trace w ++ [TxBegin] |}).
  rewrite creates_createAll. cbn [fst snd store trace w1].
  split; [intros e ->; reflexivity|].
  intros ->. split.
  - intros k e Hf. rewrite (createAll_firstFailure ps (store w) k e Hf).
    cbn [fst snd]. now rewrite <- !app_assoc.
  - intros Hno. rewrite (createAll_noFailure ps (store w) Hno).
    cbn [fst snd]. rewrite firstn_all.
    destruct (Tx_Commit repo _); now rewrite <- !app_assoc.
Qed.

(** The loops of the two entry points are a transaction of creates. *)
Lemma Attribute_creates_eq (pa : PermissionsAttribute.t) (w : World DB) :
  Attribute repo pa w =
  WithPGTx repo
    (fun repo => creates repo
       (cross (PermissionsAttribute.RolesIDs pa)
              (PermissionsAttribute.Permissions pa))) w.
Proof.
  unfold Attribute. rewrite !WithPGTx_run. cbv zeta.
  now rewrite !Attribute_roles_creates.
Qed.

Lemma AttributeToEmails_creates_eq
    (pa : PermissionsAttributeToEmails.t) (w : World DB)
    (sas : list ServiceAccount.t) :
  ServiceAccounts_ForEmails repo
    (PermissionsAttributeToEmails.Emails pa) (store w) = (sas, None) ->
  AttributeToEmails repo pa w =
  WithPGTx repo
    (fun repo => creates repo
       (cross (map ServiceAccount.BaseRoleID sas)
              (PermissionsAttributeToEmails.Permissions pa))) w.
Proof.
  intros Hres. unfold AttributeToEmails, bind, ForEmails.
  rewrite Hres. cbn [fst snd]. rewrite !WithPGTx_run. cbv zeta.
  now rewrite !AttributeToEmails_accounts_creates.
Qed.

End Attribution.

Lemma created_app (t1 t2 : list event) :
  created (t1 ++ t2) = created t1 ++ created t2.
Proof.
  induction t1 as [|[ |p| | ] t1 IH]; cbn [created app]; trivial.
  now rewrite IH.
Qed.

Lemma created_Created (ps : list Permission) : created (map Created ps) = ps.
Proof. induction ps as [|p ps IH]; cbn [created map]; [|rewrite IH]; trivial. Qed.

(** The creates between the begin and the end of one transaction. *)
Lemma created_tx (tr : list event) (ps : list Permission) (e : event) :
  (e = TxCommit \/ e = TxRollback) ->
  created (tr ++ TxBegin :: map Created ps ++ [e]) = created tr ++ ps.
Proof.
  intros He. rewrite created_app. cbn [created].
  rewrite created_app, created_Created.
  destruct He as [->| ->]; cbn [created]; now rewrite app_nil_r.
Qed.

(** C3.  Under the transaction operation that the specification describes,
    an attribution is all or nothing.  All its creates happen inside one
    transaction.  When a create fails, the first one that does, the call
    returns the error of that create, the creates up to it lie between the
    begin and the rollback, and the store is the store of before the call:
    none of the writes of the call is in it, and what was stored before is
    untouched.  When no create fails, the whole cross product has been
    created, and the store is the one that these creates have left, once
    the commit has succeeded; an error of the begin or of the commit is
    returned with the store of before the call.  Each list of creates has
    a first failure or none, so these are all the cases, and the store
    after the call is the store of before or the store after all the
    creates, never one in between.  The same holds for
    [AttributeToEmails] once the emails are resolved, with the base roles
    of the accounts as role ids. *)
Theorem Attribute_atomic {DB : Type} (repo : All DB) :
  (forall pa w,
      let ps := cross (PermissionsAttribute.RolesIDs pa)
                      (PermissionsAttribute.Permissions pa) in
      let r := Attribute repo pa w in
      atomicOutcome repo ps w r
      /\ ((exists k e, firstFailure repo ps (store w) k e)
          \/ noFailure repo ps (store w))
      /\ (store (snd r) = store w
          \/ (fst r = None /\ noFailure repo ps (store w)
              /\ store (snd r) =
                 storeAfter repo ps (List.length ps) (store w))))
  /\ (forall pa w sas,
      ServiceAccounts_ForEmails repo
        (PermissionsAttributeToEmails.Emails pa) (store w) = (sas, None) ->
      let ps := cross (map ServiceAccount.BaseRoleID sas)
                      (PermissionsAttributeToEmails.Permissions pa) in
      let r := AttributeToEmails repo pa w in
      atomicOutcome repo ps w r
      /\ ((exists k e, firstFailure repo ps (store w) k e)
          \/ noFailure repo ps (store w))
      /\ (store (snd r) = store w
          \/ (fst r = None /\ noFailure repo ps (store w)
              /\ store (snd r) =
                 storeAfter repo ps (List.length ps) (store w)))).
Proof.
  assert (forall ps w r,
             atomicOutcome repo ps w r ->
             atomicOutcome repo ps w r
             /\ ((exists k e, firstFailure repo ps (store w) k e)
                 \/ noFailure repo ps (store w))
             /\ (store (snd r) = store w
                 \/ (fst r = None /\ noFailure repo ps (store w)
                     /\ store (snd r) =
                        storeAfter repo ps (List.length ps) (store w))))
    as Hall.
  { intros ps w r Hr. split; [exact Hr|].
    split; [apply failure_or_not|].
    destruct Hr as [Hbegin Hrun].
    destruct (Tx_Begin repo (store w)) as [e|] eqn:Eb;
      [left; now rewrite (Hbegin e eq_refl)|].
    destruct (Hrun eq_refl) as [Hfail Hok].
    destruct (failure_or_not repo ps (store w)) as [(k & e & Hf)|Hno].
    - left. now rewrite (Hfail k e Hf).
    - specialize (Hok Hno).
      destruct (Tx_Commit repo _) as [e|]; rewrite Hok; [now left|].
      right. repeat split; trivial. }
  split.
  - intros pa w ps r. apply Hall. subst r ps.
    rewrite Attribute_creates_eq. apply WithPGTx_atomic.
  - intros pa w sas Hres ps r. apply Hall. subst r ps.
    rewrite (AttributeToEmails_creates_eq repo pa w sas Hres).
    apply WithPGTx_atomic.
Qed.

(** The atomicity scenario of the specification: 2 roles, 2 templates, the
    second write fails.  The call returns the error of this write, after
    two creates and a rollback, and the store holds what it held before,
    none of the four permissions. *)
Lemma Attribute_atomic_witness :
  firstFailure (mem.repo scenario.secondWrite)
    (cross (PermissionsAttribute.RolesIDs scenario.pa)
           (PermissionsAttribute.Permissions scenario.pa))
    (store scenario.w0) 1 "write failed"
  /\ Attribute (mem.repo scenario.secondWrite) scenario.pa scenario.w0
     = (Some "write failed",
        {| store := store scenario.w0;
           trace := trace scenario.w0
                    ++ TxBegin
                       :: map Created
                            (firstn 2
                               (cross
                                  (PermissionsAttribute.RolesIDs scenario.pa)
                                  (PermissionsAttribute.Permissions scenario.pa)))
                       ++ [TxRollback] |})
  /\ mem.permissions (store scenario.w0) = [scenario.stored].
Proof.
  assert (firstFailure (mem.repo scenario.secondWrite)
            (cross (PermissionsAttribute.RolesIDs scenario.pa)
                   (PermissionsAttribute.Permissions scenario.pa))
            (store scenario.w0) 1 "write failed") as Hf.
  { split; [vm_compute; lia|]. split; [reflexivity|].
    intros [|j] Hj; [reflexivity|lia]. }
  split; [exact Hf|]. split; [|reflexivity].
  destruct (proj1 (Attribute_atomic (mem.repo scenario.secondWrite))
              scenario.pa scenario.w0) as [[_ Hrun] _].
  destruct (Hrun eq_refl) as [Hfail _].
  exact (Hfail 1 "write failed"%string Hf).
Defined.

(** C8.  When the resolution of the emails returns an error,
    [AttributeToEmails] returns that error and leaves the world as it was:
    no create has been issued and no transaction has been opened, since the
    call returns before it reaches either. *)
Theorem AttributeToEmails_resolution_error
    {DB : Type} (repo : All DB) (pa : PermissionsAttributeToEmails.t)
    (w : World DB) (sas : list ServiceAccount.t) (err : error) :
  ServiceAccounts_ForEmails repo
    (PermissionsAttributeToEmails.Emails pa) (store w) = (sas, Some err) ->
  AttributeToEmails repo pa w = (Some err, w)
  /\ trace (snd (AttributeToEmails repo pa w)) = trace w
  /\ store (snd (AttributeToEmails repo pa w)) = store w.
Proof.
  intros Hres.
  assert (AttributeToEmails repo pa w = (Some err, w)) as E.
  { unfold AttributeToEmails, bind, ForEmails. rewrite Hres. reflexivity. }
  rewrite E. auto.
Qed.

(** The fifth scenario of the specification: ["a@x.com"] has no service
    account, so the call returns the error of the resolution and nothing
    is written. *)
Lemma AttributeToEmails_resolution_error_witness :
  AttributeToEmails (mem.repo scenario.noFailure)
    (scenario.paEmails ["a@x.com"]) scenario.w0
  = (Some "Service Account not found for email a@x.com", scenario.w0).
Proof.
  apply (AttributeToEmails_resolution_error (mem.repo scenario.noFailure)
           (scenario.paEmails ["a@x.com"]) scenario.w0 []).
  reflexivity.
Defined.

Section Creates.

Context {DB : Type} (repo : All DB).

(** The creates that an atomic attribution has issued. *)
Lemma atomic_createsIssued
    (ps : list Permission) (w : World DB) (r : option error * World DB) :
  atomicOutcome repo ps w r -> createsIssued repo ps w (snd r).
Proof.
  intros [Hbegin Hrun]. split.
  - destruct (Tx_Begin repo (store w)) as [e|]; [|congruence].
    intros _. now rewrite (Hbegin e eq_refl).
  - intros Hb. destruct (Hrun Hb) as [Hfail Hok]. split.
    + intros k e Hf. rewrite (Hfail k e Hf). cbn [snd trace].
      apply created_tx. now right.
    + intros Hno. specialize (Hok Hno).
      destruct (Tx_Commit repo _); rewrite Hok; cbn [snd trace];
        apply created_tx; auto.
Qed.

Lemma cross_nil_r (rolesIDs : list string) : cross rolesIDs [] = [].
Proof. induction rolesIDs as [|r rest IH]; [reflexivity|exact IH]. Qed.

Lemma cross_length (rolesIDs : list string) (permissions : list Permission) :
  List.length (cross rolesIDs permissions) =
  List.length rolesIDs * List.length permissions.
Proof.
  induction rolesIDs as [|r rest IH]; [reflexivity|].
  change (cross (r :: rest) permissions)
    with (map (fun p => setRoleID p r) permissions ++ cross rest permissions).
  rewrite length_app, length_map, IH. reflexivity.
Qed.

(** The record of the pair of the role number [i] and the template number
    [j] stands at the index [i * len(permissions) + j] of the cross
    product, and is this template with the id of this role. *)
Lemma cross_nth (rolesIDs : list string) (permissions : list Permission)
    (i j : nat) :
  i < List.length rolesIDs -> j < List.length permissions ->
  nth (i * List.length permissions + j) (cross rolesIDs permissions)
      zeroPermission
  = setRoleID (nth j permissions zeroPermission) (nth i rolesIDs "").
Proof.
  revert i; induction rolesIDs as [|r rest IH]; intros i Hi Hj;
    [simpl in Hi; lia|].
  change (cross (r :: rest) permissions)
    with (map (fun p => setRoleID p r) permissions ++ cross rest permissions).
  destruct i as [|i].
  - cbn [Nat.mul Nat.add nth]. rewrite app_nth1 by now rewrite length_map.
    rewrite (nth_indep _ zeroPermission (setRoleID zeroPermission r))
      by now rewrite length_map.
    apply (map_nth (fun p => setRoleID p r)).
  - rewrite app_nth2 by (rewrite length_map; simpl; lia).
    rewrite length_map.
    replace (S i * List.length permissions + j - List.length permissions)
      with (i * List.length permissions + j) by (simpl; lia).
    cbn [nth]. apply IH; trivial. simpl in Hi. lia.
Qed.

(** The inner loop on the memory of the loops: the templates are as they
    were, and the error and the world are those of the loop on the
    templates left to visit. *)
Lemma Attribute_permissions_frame_spec
    (roleID : string) (fuel j : nat) (f : frame) (w : World DB) :
  j + fuel = List.length (templates f) ->
  let r := Attribute_permissions_frame repo roleID j fuel f w in
  templates (snd (fst r)) = templates f
  /\ (fst (fst r), snd r) =
     Attribute_permissions repo roleID (skipn j (templates f)) w.
Proof.
  revert j f w; induction fuel as [|fuel IH]; intros j f w Hj; cbv zeta.
  - rewrite skipn_all2 by lia. split; reflexivity.
  - cbn [Attribute_permissions_frame]. cbn [templates permission].
    rewrite (skipn_nth _ zeroPermission (templates f) j) by lia.
    cbn [Attribute_permissions]. unfold bind.
    destruct (Create repo
                (setRoleID (nth j (templates f) zeroPermission) roleID) w)
      as [r w'].
    destruct (snd r) as [e|]; [split; reflexivity|].
    set (f3 := {| templates := templates f; permission := fst r |}).
    specialize (IH (S j) f3 w'). cbv zeta in IH. cbn [templates f3] in IH.
    apply IH. lia.
Qed.

(** The two loops on the memory of the loops. *)
Lemma Attribute_roles_frame_spec
    (rolesIDs : list string) (f : frame) (w : World DB) :
  let r := Attribute_roles_frame repo rolesIDs f w in
  templates (snd (fst r)) = templates f
  /\ (fst (fst r), snd r) = Attribute_roles repo rolesIDs (templates f) w.
Proof.
  revert f w; induction rolesIDs as [|roleID rest IH]; intros f w; cbv zeta.
  - split; reflexivity.
  - cbn [Attribute_roles_frame Attribute_roles]. unfold bind.
    pose proof (Attribute_permissions_frame_spec roleID
                  (List.length (templates f)) 0 f w eq_refl) as H.
    cbv zeta in H. cbn [skipn] in H. destruct H as [Ht Hr].
    destruct (Attribute_permissions_frame repo roleID 0
                (List.length (templates f)) f w) as [[err f'] w'].
    cbn [fst snd] in Ht, Hr |- *. rewrite <- Hr.
    destruct err as [e|]; [split; [exact Ht|reflexivity]|].
    specialize (IH f' w'). cbv zeta in IH. rewrite Ht in IH. exact IH.
Qed.

End Creates.

(** C9, as the specification words it, fails: when a create fails, the
    creates of the pairs after it are not issued.  With 2 roles, 2
    templates and a second write that fails, 2 creates are issued, not the
    4 of the cross product. *)
Lemma Attribute_creates_counterexample :
  created (trace (snd (Attribute (mem.repo scenario.secondWrite)
                         scenario.pa scenario.w0)))
  <> created (trace scenario.w0)
     ++ cross (PermissionsAttribute.RolesIDs scenario.pa)
              (PermissionsAttribute.Permissions scenario.pa).
Proof. vm_compute. discriminate. Qed.

(** C9, amended.  In a transaction that has begun, [Attribute] issues its
    creates in role-major order, one per (role id, template) pair, up to
    and including the first create that returns an error: all the pairs
    when no create returns one; it issues none when the transaction does
    not begin.  [AttributeToEmails] does the same with the base roles of
    the resolved accounts, and issues none when the resolution fails.  The
    cross product has one record per pair: the record of the role number
    [i] and of the template number [j] is this template with [RoleID] set
    to the id of this role and every other field as in the template.  The
    templates of the caller are not written: on the memory of the loops,
    where [Create] writes through the address of the loop variable, the
    slice of the caller is after the loops what it was before, and the
    loops do what they do on the templates alone. *)
Theorem Attribute_creates {DB : Type} (repo : All DB) :
  (forall pa w,
      createsIssued repo
        (cross (PermissionsAttribute.RolesIDs pa)
               (PermissionsAttribute.Permissions pa))
        w (snd (Attribute repo pa w)))
  /\ (forall pa w,
      let res := ServiceAccounts_ForEmails repo
                   (PermissionsAttributeToEmails.Emails pa) (store w) in
      match snd res with
      | Some _ =>
          created (trace (snd (AttributeToEmails repo pa w))) =
          created (trace w)
      | None =>
          createsIssued repo
            (cross (map ServiceAccount.BaseRoleID (fst res))
                   (PermissionsAttributeToEmails.Permissions pa))
            w (snd (AttributeToEmails repo pa w))
      end)
  /\ (forall rolesIDs permissions,
      List.length (cross rolesIDs permissions) =
      List.length rolesIDs * List.length permissions
      /\ forall i j,
          i < List.length rolesIDs -> j < List.length permissions ->
          let p := nth (i * List.length permissions + j)
                       (cross rolesIDs permissions) zeroPermission in
          let t := nth j permissions zeroPermission in
          RoleID p = nth i rolesIDs ""
          /\ ID p = ID t /\ Service p = Service t
          /\ OwnershipLevel p = OwnershipLevel t /\ Action p = Action t
          /\ ResourceHierarchy p = ResourceHierarchy t /\ Alias p = Alias t)
  /\ (forall rolesIDs f w,
      let r := Attribute_roles_frame repo rolesIDs f w in
      templates (snd (fst r)) = templates f
      /\ (fst (fst r), snd r) = Attribute_roles repo rolesIDs (templates f) w).
Proof.
  split; [|split; [|split]].
  - intros pa w. apply atomic_createsIssued.
    rewrite Attribute_creates_eq. apply WithPGTx_atomic.
  - intros pa w res.
    destruct res as [sas [err|]] eqn:Hres; cbn [fst snd].
    + unfold AttributeToEmails, bind, ForEmails. fold res. now rewrite Hres.
    + apply atomic_createsIssued.
      rewrite (AttributeToEmails_creates_eq repo pa w sas Hres).
      apply WithPGTx_atomic.
  - intros rolesIDs permissions. split; [apply cross_length|].
    intros i j Hi Hj p t. subst p t. rewrite cross_nth by trivial.
    cbn. repeat split.
  - intros rolesIDs f w. apply Attribute_roles_frame_spec.
Qed.

(** The scenario of the counterexample: the second create is the first to
    fail, and the two creates issued are those of the first role with the
    two templates. *)
Lemma Attribute_creates_witness :
  created (trace (snd (Attribute (mem.repo scenario.secondWrite)
                         scenario.pa scenario.w0)))
  = created (trace scenario.w0)
    ++ [setRoleID scenario.t1 "r1"; setRoleID scenario.t2 "r1"].
Proof.
  apply (proj1 (proj2 (proj1 (Attribute_creates (mem.repo scenario.secondWrite))
                         scenario.pa scenario.w0) eq_refl)
           1 "write failed"%string).
  split; [vm_compute; lia|]. split; [reflexivity|].
  intros [|j] Hj; [reflexivity|lia].
Defined.

(* ================================================================= *)
(** ** Splitting what was joined *)

Section JoinSplit.

Local Open Scope string_scope.

Lemma Index_None_cons (c : ascii) (s sep : string) :
  strings.Index (String c s) sep = None <->
  strings.HasPrefix (String c s) sep = false /\ strings.Index s sep = None.
Proof.
  cbn [strings.Index].
  destruct (strings.HasPrefix (String c s) sep).
  - split; [discriminate|]. intros [? _]. discriminate.
  - destruct (strings.Index s sep); cbn; split; try discriminate; auto.
    intros [_ ?]. discriminate.
Qed.

Lemma HasPrefix_nil (s : string) : strings.HasPrefix s "" = true.
Proof. now destruct s. Qed.

(** Whether a string begins with ["::"] is seen on its first two bytes. *)
Lemma HasPrefix_colons (c : ascii) (p x y : string) :
  strings.HasPrefix (String c (p ++ ":" ++ x)) "::" =
  strings.HasPrefix (String c (p ++ ":" ++ y)) "::".
Proof.
  destruct p; cbn [String.append strings.HasPrefix];
    rewrite ?HasPrefix_nil; reflexivity.
Qed.

Lemma length_append (a b : string) :
  String.length (a ++ b) = String.length a + String.length b.
Proof. induction a as [|c a IH]; simpl; [|rewrite IH]; trivial. Qed.

Lemma append_assoc (a b c : string) : (a ++ b) ++ c = a ++ (b ++ c).
Proof. induction a as [|ch a IH]; simpl; [|rewrite IH]; trivial. Qed.

Lemma take_app (a b : string) : strings.take (String.length a) (a ++ b) = a.
Proof. induction a as [|c a IH]; simpl; [now destruct b|now rewrite IH]. Qed.

Lemma drop_app (a b : string) : strings.drop (String.length a) (a ++ b) = b.
Proof. induction a as [|c a IH]; simpl; trivial. Qed.

Lemma Index_zero (s sep : string) :
  strings.Index s sep = Some 0 -> strings.HasPrefix s sep = true.
Proof.
  destruct s as [|c s]; cbn [strings.Index];
    destruct (strings.HasPrefix _ sep); trivial; try discriminate.
  destruct (strings.Index s sep); discriminate.
Qed.

(** The first ["::"] after a part is the separator that follows it. *)
Lemma Index_isPart (p rest : string) :
  isPart p = true ->
  strings.Index (p ++ "::" ++ rest) "::" = Some (String.length p).
Proof.
  unfold isPart, noSep. induction p as [|c p IH]; intros H.
  - cbn [String.append String.length strings.Index strings.HasPrefix].
    now rewrite HasPrefix_nil.
  - destruct (strings.Index (String c p ++ ":") "::") eqn:E; [discriminate|].
    change (String c p ++ ":") with (String c (p ++ ":")) in E.
    apply Index_None_cons in E as [Hp Hi].
    change (String c p ++ "::" ++ rest)
      with (String c (p ++ ":" ++ (":" ++ rest))).
    cbn [strings.Index].
    rewrite (HasPrefix_colons c p _ "").
    change (p ++ ":" ++ "") with (p ++ ":"). rewrite Hp.
    change (p ++ ":" ++ ":" ++ rest) with (p ++ "::" ++ rest).
    rewrite IH by now rewrite Hi. reflexivity.
Qed.

(** What [Index] leaves before the separator is a part. *)
Lemma Index_take_isPart (s : string) (m : nat) :
  strings.Index s "::" = Some m -> isPart (strings.take m s) = true.
Proof.
  unfold isPart, noSep. revert m; induction s as [|c s IH]; intros m H.
  - discriminate.
  - cbn [strings.Index] in H.
    destruct (strings.HasPrefix (String c s) "::") eqn:Hp.
    + injection H as <-. reflexivity.
    + destruct (strings.Index s "::") as [k|] eqn:Hi; [|discriminate].
      injection H as <-. cbn [strings.take].
      specialize (IH k eq_refl).
      destruct (strings.Index (strings.take k s ++ ":") "::") eqn:E;
        [discriminate|].
      change (String c (strings.take k s) ++ ":")
        with (String c (strings.take k s ++ ":")).
      assert (strings.HasPrefix (String c (strings.take k s ++ ":")) "::"
              = false) as Hp'.
      { destruct k as [|k].
        - (* the separator is right after [c], so [c] is not a colon *)
          apply Index_zero in Hi. destruct s as [|d s]; [discriminate|].
          cbn [strings.HasPrefix strings.take String.append] in Hi, Hp |- *.
          apply andb_true_iff in Hi as [Hd _]. rewrite Hd in Hp.
          rewrite HasPrefix_nil in Hp.
          destruct (Ascii.eqb ":" c); [discriminate|reflexivity].
        - destruct s as [|d s]; [discriminate|].
          cbn [strings.HasPrefix strings.take String.append] in Hp |- *.
          rewrite HasPrefix_nil in Hp |- *. exact Hp. }
      cbn [strings.Index]. rewrite Hp', E. reflexivity.
Qed.

Lemma isSplit_cons (p : string) (rest : list string) :
  rest <> [] -> isSplit (p :: rest) = isPart p && isSplit rest.
Proof. destruct rest; [congruence|reflexivity]. Qed.

(** A split gives parts. *)
Lemma genSplit_isSplit (fuel : nat) (s : string) :
  String.length s <= fuel -> isSplit (strings.genSplit fuel s "::") = true.
Proof.
  revert s; induction fuel as [|fuel IH]; intros s Hlen.
  - destruct s; [reflexivity|simpl in Hlen; lia].
  - cbn [strings.genSplit].
    destruct (strings.Index s "::") as [m|] eqn:Hi.
    + rewrite isSplit_cons by apply genSplit_nonempty.
      rewrite (Index_take_isPart _ _ Hi). cbn [andb].
      apply IH. pose proof (Index_bound _ _ _ Hi) as Hb.
      rewrite length_drop. cbn [String.length] in Hb |- *. lia.
    + cbn [isSplit]. unfold noSep. now rewrite Hi.
Qed.

Lemma Split_isSplit (s : string) : isSplit (strings.Split s "::") = true.
Proof. now apply genSplit_isSplit. Qed.

(** Splitting the join of parts gives the parts back. *)
Lemma Split_Join (parts : list string) :
  isSplit parts = true ->
  strings.Split (strings.Join parts "::") "::" = parts.
Proof.
  induction parts as [|p rest IH]; intros H; [discriminate|].
  destruct rest as [|q rest].
  - cbn [isSplit] in H. cbn [strings.Join]. unfold noSep in H.
    unfold strings.Split. destruct p as [|c p]; [reflexivity|].
    cbn [String.length strings.genSplit].
    destruct (strings.Index (String c p) "::"); [discriminate|reflexivity].
  - rewrite isSplit_cons in H by discriminate.
    apply andb_true_iff in H as [Hp Hrest].
    rewrite Join_cons by discriminate.
    set (r := strings.Join (q :: rest) "::") in *.
    unfold strings.Split. rewrite length_append. cbn [String.append String.length].
    replace (String.length p + S (S (String.length r)))
      with (S (String.length p + S (String.length r))) by lia.
    cbn [strings.genSplit].
    change (String ":" (String ":" r)) with ("::" ++ r).
    rewrite (Index_isPart p r Hp). rewrite take_app.
    replace (String.length p + String.length "::")
      with (String.length (p ++ "::")) by apply length_append.
    replace (p ++ "::" ++ r) with ((p ++ "::") ++ r) by apply append_assoc.
    rewrite drop_app. f_equal.
    rewrite genSplit_fuel; [now apply IH|discriminate|lia].
Qed.

(** The parts before an index of a split, closed by a last part of one's
    own, are parts again. *)
Lemma isSplit_firstn (parts : list string) (i : nat) (q : string) :
  isSplit parts = true -> i < List.length parts -> noSep q = true ->
  isSplit (firstn i parts ++ [q]) = true.
Proof.
  revert i; induction parts as [|p rest IH]; intros i H Hi Hq;
    [discriminate|].
  destruct i as [|i]; [exact Hq|].
  destruct rest as [|p' rest]; [simpl in Hi; lia|].
  rewrite isSplit_cons in H by discriminate.
  apply andb_true_iff in H as [Hp Hrest].
  cbn [firstn app]. rewrite isSplit_cons by (destruct i; discriminate).
  rewrite Hp. cbn [andb]. apply IH; trivial. simpl in Hi |- *. lia.
Qed.

(** The tail of a split is a split. *)
Lemma isSplit_skipn (parts : list string) (i : nat) :
  isSplit parts = true -> i < List.length parts ->
  isSplit (skipn i parts) = true.
Proof.
  revert i; induction parts as [|p rest IH]; intros i H Hi; [discriminate|].
  destruct i as [|i]; [exact H|].
  destruct rest as [|p' rest]; [simpl in Hi; lia|].
  rewrite isSplit_cons in H by discriminate.
  apply andb_true_iff in H as [_ Hrest].
  cbn [skipn]. apply IH; trivial. simpl in Hi |- *. lia.
Qed.

(** Two strings with the same parts are the same string. *)
Lemma Split_inj (a b : string) :
  strings.Split a "::" = strings.Split b "::" -> a = b.
Proof.
  intros H. rewrite <- (Join_Split a "::"), <- (Join_Split b "::").
  now rewrite H.
Qed.

End JoinSplit.

(* ================================================================= *)
(** ** Containment as an order, and the keys that match a hierarchy *)

Section Containment.

Implicit Types a b c : list string.

Lemma firstn_eq_nth a b (k j : nat) :
  firstn k a = firstn k b -> j < k -> nth j a "" = nth j b "".
Proof.
  revert a b j; induction k as [|k IH]; intros a b j H Hj; [lia|].
  destruct a as [|x a], b as [|y b]; try discriminate; trivial.
  cbn [firstn] in H. injection H as -> H.
  destruct j as [|j]; [reflexivity|]. cbn [nth]. apply IH; trivial. lia.
Qed.

Lemma firstn_eq_le a b (k j : nat) :
  firstn k a = firstn k b -> j <= k -> firstn j a = firstn j b.
Proof.
  intros H Hj. rewrite <- (Nat.min_l j k Hj), <- !firstn_firstn.
  now rewrite H.
Qed.

Lemma snoc_last a (k : nat) :
  S k = List.length a -> a = firstn k a ++ [nth k a ""].
Proof.
  revert k; induction a as [|x a IH]; intros k Hk; [discriminate|].
  destruct k as [|k].
  - destruct a; [reflexivity|discriminate].
  - cbn [firstn nth app]. f_equal. apply IH. simpl in Hk. lia.
Qed.

Lemma Split_star : strings.Split "*" "::" = ["*"].
Proof. reflexivity. Qed.

Lemma Split_length_pos (s : string) : 0 < List.length (strings.Split s "::").
Proof.
  pose proof (Split_nonempty s "::") as H.
  destruct (strings.Split s "::"); [congruence|simpl; lia].
Qed.

Lemma Contains_refl_aux (rh : string) : Contains rh rh = true.
Proof.
  rewrite Contains_walk. cbv zeta. rewrite Nat.ltb_irrefl. apply walk_refl.
Qed.

Lemma Contains_star_l (orh : string) : Contains "*" orh = true.
Proof.
  apply Contains_true_iff. cbv zeta. rewrite Split_star.
  pose proof (Split_length_pos orh). split; [simpl; lia|].
  right. exists 0. repeat split. simpl. lia.
Qed.

Lemma Contains_star_r (rh : string) : Contains rh "*" = true -> rh = "*".
Proof.
  intros H. apply Contains_true_iff in H. cbv zeta in H.
  rewrite Split_star in H. destruct H as [Hlen H].
  apply Split_inj. rewrite Split_star.
  destruct H as [H|(k & Hk & Hs & _)]; [exact H|].
  pose proof (Split_length_pos rh).
  destruct (strings.Split rh "::") as [|x [|y l]]; simpl in *; try lia.
  destruct k; [now subst x|lia].
Qed.

Lemma Join_snoc (l : list string) (q sep : string) :
  l <> [] ->
  strings.Join (l ++ [q]) sep = (strings.Join l sep ++ sep ++ q)%string.
Proof.
  induction l as [|x l IH]; intros Hne; [congruence|].
  destruct l as [|y l]; [reflexivity|].
  change ((x :: y :: l) ++ [q]) with (x :: ((y :: l) ++ [q])).
  rewrite Join_cons by (simpl; discriminate). rewrite IH by discriminate.
  rewrite (Join_cons x (y :: l)) by discriminate.
  now rewrite !append_assoc.
Qed.

(** The keys of a hierarchy that is not ["*"]. *)
Lemma PermissionMatches_keys (rh : string) :
  rh <> "*" ->
  let parts := strings.Split rh "::" in
  exists n,
    n < List.length parts
    /\ (forall i, 1 <= i <= n -> nth i parts "" <> "*")
    /\ (S n = List.length parts \/ nth (S n) parts "" = "*")
    /\ PermissionMatches rh =
       "*" :: map (fun i => (strings.Join (firstn i parts) "::" ++ "::*")%string)
                  (seq 1 n)
           ++ [rh].
Proof.
  intros Hrh parts. unfold PermissionMatches. fold parts.
  pose proof (Split_length_pos rh) as Hpos. fold parts in Hpos.
  apply String.eqb_neq in Hrh. rewrite Hrh.
  destruct (PermissionMatches_loop_spec parts (List.length parts - 1) 1 ["*"])
    as (k & Hk & Hall & Hend & E).
  exists k. rewrite E. repeat split; [lia| |].
  - intros i Hi. apply Hall. lia.
  - destruct Hend as [->|Hend]; [left; lia|now right].
Qed.

(** The segments of a key: the first [i] segments of the hierarchy, then
    the wildcard. *)
Lemma Split_key (rh : string) (i : nat) :
  1 <= i < List.length (strings.Split rh "::") ->
  strings.Split
    (strings.Join (firstn i (strings.Split rh "::")) "::" ++ "::*")%string "::"
  = firstn i (strings.Split rh "::") ++ ["*"].
Proof.
  intros Hi. change "::*"%string with ("::" ++ "*")%string.
  rewrite <- Join_snoc.
  - apply Split_Join. apply isSplit_firstn; [apply Split_isSplit|lia|reflexivity].
  - destruct (strings.Split rh "::"); [simpl in Hi; lia|].
    destruct i; [lia|discriminate].
Qed.

End Containment.

(** X1.  A hierarchy contains itself, with or without a wildcard. *)
Theorem Contains_refl (rh : string) : Contains rh rh = true.
Proof.
  unfold Contains, buildResourceHierarchy. cbn [size hierarchy].
  rewrite Nat.ltb_irrefl, Contains_loop_walk by reflexivity.
  apply walk_refl.
Qed.

(** X2.  The hierarchy ["*"] contains every hierarchy, and only ["*"]
    contains ["*"]. *)
Theorem Contains_universal (rh : string) :
  Contains "*" rh = true /\ (Contains rh "*" = true <-> rh = "*").
Proof.
  split; [apply Contains_star_l|]. split; [apply Contains_star_r|].
  intros ->. reflexivity.
Qed.

(** Containment of segment sequences, in its closed form, is
    transitive. *)
Lemma covers_trans (A B C : list string) :
  List.length A <= List.length B /\
  (A = B \/ exists k, k < List.length A /\ nth k A "" = "*" /\
                      firstn k A = firstn k B) ->
  List.length B <= List.length C /\
  (B = C \/ exists k, k < List.length B /\ nth k B "" = "*" /\
                      firstn k B = firstn k C) ->
  List.length A <= List.length C /\
  (A = C \/ exists k, k < List.length A /\ nth k A "" = "*" /\
                      firstn k A = firstn k C).
Proof.
  intros [Hlab Hab] [Hlbc Hbc]. split; [lia|].
  destruct Hab as [Hab|(k & Hk & Hsk & Hfk)]; [rewrite Hab; exact Hbc|].
  destruct Hbc as [Hbc|(j & Hj & Hsj & Hfj)].
  - rewrite <- Hbc. right. exists k. auto.
  - right. destruct (Nat.lt_ge_cases j k) as [Hjk|Hkj].
    + exists j. split; [lia|]. split.
      * now rewrite (firstn_eq_nth A B k j).
      * rewrite (firstn_eq_le A B k j) by (trivial; lia). exact Hfj.
    + exists k. repeat split; trivial.
      rewrite Hfk. now apply (firstn_eq_le B C j k).
Qed.

(** X3.  Containment is transitive: what a hierarchy contains, every
    hierarchy that contains it contains too. *)
Theorem Contains_trans (a b c : string) :
  Contains a b = true -> Contains b c = true -> Contains a c = true.
Proof.
  intros Hab Hbc.
  apply Contains_true_iff in Hab; apply Contains_true_iff in Hbc;
    apply Contains_true_iff; cbv zeta in *.
  now apply (covers_trans _ (strings.Split b "::")).
Qed.

Lemma Contains_trans_witness : Contains "maestro::*" "maestro::sniper-3d::na" = true.
Proof.
  apply (Contains_trans "maestro::*" "maestro::sniper-3d::*"
           "maestro::sniper-3d::na"); reflexivity.
Defined.

(** X4.  A complete hierarchy, one without a wildcard segment, contains
    itself and nothing else. *)
Theorem Contains_complete (rh orh : string) :
  ~ In "*" (strings.Split rh "::") ->
  (Contains rh orh = true <-> rh = orh).
Proof.
  intros Hno. split; [|intros <-; apply Contains_refl_aux].
  intros H. apply Contains_true_iff in H. cbv zeta in H.
  destruct H as [_ [H|(k & Hk & Hs & _)]]; [now apply Split_inj|].
  exfalso. apply Hno. rewrite <- Hs. now apply nth_In.
Qed.

Lemma Contains_complete_witness :
  Contains "maestro::sniper-3d" "maestro::sniper-3d::na" = true
  <-> "maestro::sniper-3d" = "maestro::sniper-3d::na".
Proof.
  apply (Contains_complete "maestro::sniper-3d" "maestro::sniper-3d::na").
  vm_compute. intuition discriminate.
Defined.

(** X5.  Every key that [PermissionMatches] gives for a hierarchy is a
    hierarchy that contains it. *)
Theorem PermissionMatches_sound (rh h : string) :
  In h (PermissionMatches rh) -> Contains h rh = true.
Proof.
  destruct (String.eqb_spec rh "*") as [->|Hrh].
  - intros [<-|[]]. reflexivity.
  - destruct (PermissionMatches_keys rh Hrh) as (n & Hn & Hall & Hend & E).
    rewrite E. intros [<-|Hin]; [apply Contains_star_l|].
    apply in_app_or in Hin as [Hin|[<-|[]]]; [|apply Contains_refl_aux].
    apply in_map_iff in Hin as (i & <- & Hi). apply in_seq in Hi.
    apply Contains_true_iff. cbv zeta.
    rewrite Split_key by lia.
    set (parts := strings.Split rh "::") in *.
    assert (List.length (firstn i parts) = i) as Hl
      by (rewrite length_firstn; lia).
    split; [rewrite length_app, Hl; simpl; lia|].
    right. exists i. rewrite length_app, Hl. split; [simpl; lia|]. split.
    + rewrite app_nth2 by lia. rewrite Hl, Nat.sub_diag. reflexivity.
    + rewrite firstn_app, Hl, Nat.sub_diag. cbn [firstn].
      rewrite app_nil_r, firstn_firstn, Nat.min_id. reflexivity.
Qed.

Lemma PermissionMatches_sound_witness :
  Contains "maestro::sniper-3d::*" "maestro::sniper-3d::na::red" = true.
Proof.
  apply (PermissionMatches_sound "maestro::sniper-3d::na::red"
           "maestro::sniper-3d::*").
  vm_compute. auto.
Defined.

(** X6.  For hierarchies closed by their wildcard, the keys are complete:
    a hierarchy that contains [rh] is one of the keys of [rh]. *)
Theorem PermissionMatches_complete (rh h : string) :
  wildcardLast (strings.Split h "::") ->
  wildcardLast (strings.Split rh "::") ->
  Contains h rh = true ->
  In h (PermissionMatches rh).
Proof.
  intros Hwh Hwr Hc.
  destruct (String.eqb_spec rh "*") as [->|Hrh].
  - apply Contains_star_r in Hc. subst h. now left.
  - destruct (PermissionMatches_keys rh Hrh) as (n & Hn & Hall & Hend & E).
    rewrite E. clear E.
    apply Contains_true_iff in Hc. cbv zeta in Hc.
    set (O := strings.Split rh "::") in *.
    assert (h = rh -> In h ("*" :: map
              (fun i => (strings.Join (firstn i O) "::" ++ "::*")%string)
              (seq 1 n) ++ [rh])) as Hlast.
    { intros ->. right. apply in_or_app. right. now left. }
    destruct Hc as [Hlen [Heq|(k & Hk & Hs & Hf)]];
      [apply Hlast; now apply Split_inj|].
    pose proof (Hwh k Hs) as Hkl.
    pose proof (snoc_last _ k Hkl) as HS. rewrite Hs, Hf in HS.
    assert (h = strings.Join (firstn k O ++ ["*"]) "::") as Hh
      by (rewrite <- HS; symmetry; apply Join_Split).
    destruct k as [|k]; [left; now rewrite Hh|].
    destruct (Nat.le_gt_cases (S k) n) as [Hkn|Hkn].
    + right. apply in_or_app. left. apply in_map_iff. exists (S k). split.
      * rewrite Hh. change "::*"%string with ("::" ++ "*")%string.
        symmetry. apply Join_snoc.
        destruct O; [simpl in Hn; lia|discriminate].
      * apply in_seq. lia.
    + (* the wildcard of [h] stands where [rh] has its own *)
      apply Hlast. apply Split_inj. fold O. rewrite HS.
      destruct Hend as [Hend|Hend]; [lia|].
      pose proof (Hwr _ Hend) as Hr. fold O in Hr.
      assert (S k = S n) as Hkn' by lia.
      rewrite Hkn'. rewrite (snoc_last O (S n)) at 2 by lia.
      now rewrite Hend.
Qed.

Lemma PermissionMatches_complete_witness :
  In "maestro::sniper-3d::*" (PermissionMatches "maestro::sniper-3d::na::red").
Proof.
  apply (PermissionMatches_complete "maestro::sniper-3d::na::red"
           "maestro::sniper-3d::*").
  - change (strings.Split "maestro::sniper-3d::*" "::")
      with ["maestro"; "sniper-3d"; "*"].
    intros [|[|[|[|i]]]] H; cbn in H; solve [discriminate H|reflexivity].
  - change (strings.Split "maestro::sniper-3d::na::red" "::")
      with ["maestro"; "sniper-3d"; "na"; "red"].
    intros [|[|[|[|[|i]]]]] H; cbn in H; discriminate H.
  - reflexivity.
Defined.

(* ================================================================= *)
(** ** The codec, the other way round *)

Section Codec.

Local Open Scope string_scope.

(** A part and a separator in front of a string add the part in front of
    its split. *)
Lemma Split_part (p r : string) :
  isPart p = true ->
  strings.Split (p ++ "::" ++ r) "::" = p :: strings.Split r "::".
Proof.
  intros Hp.
  rewrite <- (Join_Split r "::") at 1.
  rewrite <- Join_cons by apply Split_nonempty.
  apply Split_Join. rewrite isSplit_cons by apply Split_nonempty.
  now rewrite Hp, Split_isSplit.
Qed.

(** The parts of the string of a permission. *)
Lemma Split_String (service ol action rh : string) :
  isPart service = true -> isPart ol = true -> isPart action = true ->
  strings.Split (service ++ "::" ++ ol ++ "::" ++ action ++ "::" ++ rh) "::"
  = service :: ol :: action :: strings.Split rh "::".
Proof.
  intros Hs Ho Ha. now rewrite !Split_part.
Qed.

Lemma anyEmpty_false (parts : list string) :
  ~ In "" parts -> anyEmpty parts = false.
Proof.
  intros H. destruct (anyEmpty parts) eqn:E; [|reflexivity].
  apply anyEmpty_In in E. contradiction.
Qed.

(** Building from the four components, joined. *)
Lemma BuildPermission_components (service ol action rh : string) :
  isPart service = true -> service <> "" ->
  ol = "RO" \/ ol = "RL" ->
  isPart action = true -> action <> "" ->
  ~ In "" (strings.Split rh "::") ->
  BuildPermission (service ++ "::" ++ ol ++ "::" ++ action ++ "::" ++ rh)
  = ({| ID := ""; RoleID := ""; Service := service; OwnershipLevel := ol;
        Action := action; ResourceHierarchy := rh; Alias := "" |}, None).
Proof.
  intros Hs Hsne Hol Ha Hane Hrh.
  assert (isPart ol = true) as Ho by (destruct Hol as [->| ->]; reflexivity).
  assert (ol <> "") as Hone by (destruct Hol as [->| ->]; discriminate).
  unfold BuildPermission, ValidatePermission.
  rewrite Split_String by trivial.
  pose proof (Split_length_pos rh) as Hpos.
  replace (List.length (service :: ol :: action :: strings.Split rh "::") <? 4)%nat
    with false by (symmetry; apply Nat.ltb_ge; simpl; lia).
  cbn [nth].
  replace (negb (ol =? OwnershipLevels.Owner) && negb (ol =? OwnershipLevels.Lender))%bool
    with false by (destruct Hol as [->| ->]; reflexivity).
  rewrite anyEmpty_false by (intros [H|[H|[H|H]]]; congruence).
  cbn [negb skipn]. unfold BuildAction. now rewrite Join_Split.
Qed.

(** What a string that validates is built into. *)
Lemma BuildPermission_valid (s : string) :
  ValidatePermission s = (true, None) ->
  let parts := strings.Split s "::" in
  BuildPermission s =
    ({| ID := ""; RoleID := ""; Service := nth 0 parts "";
        OwnershipLevel := nth 1 parts ""; Action := nth 2 parts "";
        ResourceHierarchy := strings.Join (skipn 3 parts) "::";
        Alias := "" |}, None).
Proof.
  intros E parts. unfold BuildPermission. rewrite E. reflexivity.
Qed.

Lemma BuildPermission_error (s : string) :
  snd (BuildPermission s) = None <-> ValidatePermission s = (true, None).
Proof.
  unfold BuildPermission.
  destruct (ValidatePermission_cases s)
    as [(_ & E)|[(_ & _ & E)|[(_ & _ & _ & E)|(_ & _ & _ & E)]]];
    rewrite E; cbn; split; trivial; discriminate.
Qed.

End Codec.

(** X7.  Building the string of a permission gives the permission back,
    for the permissions that [BuildPermission] can give ([buildable]):
    decoding undoes encoding. *)
Theorem BuildPermission_String (p : Permission) :
  buildable p -> BuildPermission (Permission_String p) = (p, None).
Proof.
  intros (Hid & Hrole & Halias & Hs & Hsne & Hol & Ha & Hane & Hrh).
  unfold Permission_String, OwnershipLevel.String, Action.String,
    ResourceHierarchy.String.
  rewrite BuildPermission_components by trivial.
  destruct p; cbn in *; subst; reflexivity.
Qed.

Lemma BuildPermission_String_witness :
  BuildPermission (Permission_String scenario.held) = (scenario.held, None).
Proof.
  apply (BuildPermission_String scenario.held).
  vm_compute. intuition discriminate.
Defined.

(** X8.  What [BuildPermission] gives for a string that validates is
    [buildable]: the service and the action are not empty, the ownership
    level is one of the two codes, and the segments of the hierarchy are
    the parts of the string from the fourth on, none of them empty. *)
Theorem BuildPermission_buildable (s : string) :
  ValidatePermission s = (true, None) ->
  buildable (fst (BuildPermission s))
  /\ strings.Split (ResourceHierarchy (fst (BuildPermission s))) "::"
     = skipn 3 (strings.Split s "::").
Proof.
  intros E. rewrite (BuildPermission_valid s E). cbn [fst].
  destruct (ValidatePermission_cases s)
    as [(_ & E')|[(_ & _ & E')|[(_ & _ & _ & E')|(Hlen & Hol & Hne & _)]]];
    try (rewrite E in E'; discriminate).
  pose proof (Split_isSplit s) as Hsp.
  set (parts := strings.Split s "::") in *.
  assert (strings.Split (strings.Join (skipn 3 parts) "::") "::"
          = skipn 3 parts) as Hrh
    by (apply Split_Join, isSplit_skipn; trivial; lia).
  split; [|exact Hrh].
  unfold buildable.
  cbn [ID RoleID Alias Service OwnershipLevel Action ResourceHierarchy].
  rewrite Hrh.
  destruct parts as [|a [|b [|c [|d rest]]]]; simpl in Hlen; try lia.
  cbn [nth skipn] in *.
  rewrite !isSplit_cons in Hsp by discriminate.
  apply andb_true_iff in Hsp as [Ha Hsp].
  apply andb_true_iff in Hsp as [_ Hsp].
  apply andb_true_iff in Hsp as [Hc _].
  repeat split; trivial.
  - intros ->. apply Hne. now left.
  - intros ->. apply Hne. right. right. now left.
  - intros H. apply Hne. right. right. right. exact H.
Qed.

Lemma BuildPermission_buildable_witness :
  buildable (fst (BuildPermission "maestro::RL::deploy::maestro::sniper-3d::*"))
  /\ strings.Split
       (ResourceHierarchy
          (fst (BuildPermission "maestro::RL::deploy::maestro::sniper-3d::*")))
       "::"
     = skipn 3 (strings.Split "maestro::RL::deploy::maestro::sniper-3d::*" "::").
Proof.
  apply (BuildPermission_buildable "maestro::RL::deploy::maestro::sniper-3d::*").
  reflexivity.
Defined.

Section BuildMany.

Lemma setIndex_length (pSl : list Permission) (i : nat) (p : Permission) :
  List.length (setIndex pSl i p) = List.length pSl.
Proof.
  revert i; induction pSl as [|q rest IH]; intros [|i]; simpl; auto.
Qed.

Lemma setIndex_firstn (pSl : list Permission) (i : nat) (p : Permission) :
  i < List.length pSl ->
  firstn (S i) (setIndex pSl i p) = firstn i pSl ++ [p].
Proof.
  revert i; induction pSl as [|q rest IH]; intros i Hi; simpl in Hi; [lia|].
  destruct i as [|i]; [reflexivity|].
  cbn [setIndex]. rewrite firstn_cons, (firstn_cons i). cbn [app].
  f_equal. apply IH. lia.
Qed.

(** The loop of [BuildPermissions], from the index [i] on: the error of
    the first string that is refused, or the slice with the permissions
    built from the strings. *)
Lemma BuildPermissions_loop_spec
    (ps : list string) (fuel i : nat) (pSl : list Permission) :
  i + fuel = List.length ps -> List.length pSl = List.length ps ->
  BuildPermissions_loop ps i fuel pSl =
    match firstError (skipn i ps) with
    | Some e => ([], Some e)
    | None =>
        (firstn i pSl ++ map (fun s => fst (BuildPermission s)) (skipn i ps),
         None)
    end.
Proof.
  revert i pSl; induction fuel as [|fuel IH]; intros i pSl Hi Hl.
  - rewrite skipn_all2 by lia. cbn [firstError map BuildPermissions_loop].
    rewrite app_nil_r, firstn_all2 by lia. reflexivity.
  - cbn [BuildPermissions_loop].
    rewrite (skipn_nth _ "" ps i) by lia. cbn [firstError map].
    destruct (BuildPermission (nth i ps "")) as [p [e|]] eqn:E; cbn [fst snd];
      [reflexivity|].
    rewrite IH by (rewrite ?setIndex_length; lia).
    destruct (firstError (skipn (S i) ps)); [reflexivity|].
    rewrite setIndex_firstn by lia. now rewrite <- app_assoc.
Qed.

Lemma BuildPermissions_firstError (ps : list string) :
  BuildPermissions ps =
    match firstError ps with
    | Some e => ([], Some e)
    | None => (map (fun s => fst (BuildPermission s)) ps, None)
    end.
Proof.
  unfold BuildPermissions.
  rewrite BuildPermissions_loop_spec by (rewrite ?repeat_length; lia).
  reflexivity.
Qed.

Lemma firstError_valid (ps : list string) :
  Forall (fun s => ValidatePermission s = (true, None)) ps ->
  firstError ps = None.
Proof.
  induction 1 as [|s rest Hs _ IH]; cbn [firstError]; [reflexivity|].
  apply BuildPermission_error in Hs. now rewrite Hs.
Qed.

Lemma firstError_app (good : list string) (bad : string) (rest : list string)
    (e : error) :
  Forall (fun s => ValidatePermission s = (true, None)) good ->
  snd (BuildPermission bad) = Some e ->
  firstError (good ++ bad :: rest) = Some e.
Proof.
  intros Hgood Hbad. induction Hgood as [|s good Hs _ IH]; cbn [firstError app].
  - now rewrite Hbad.
  - apply BuildPermission_error in Hs. now rewrite Hs.
Qed.

End BuildMany.

(** X9.  [BuildPermissions] is all or nothing.  When every string
    validates, it returns one permission per string, in order, each with
    its string as [String()].  When a string does not, it returns no
    permission at all and the validation error of the first such
    string. *)
Theorem BuildPermissions_spec (ps : list string) :
  (Forall (fun s => ValidatePermission s = (true, None)) ps ->
   exists pSl,
     BuildPermissions ps = (pSl, None)
     /\ List.length pSl = List.length ps
     /\ map Permission_String pSl = ps)
  /\ (forall good bad rest e,
       ps = good ++ bad :: rest ->
       Forall (fun s => ValidatePermission s = (true, None)) good ->
       ValidatePermission bad = (false, Some e) ->
       BuildPermissions ps = ([], Some e)).
Proof.
  split.
  - intros Hall. rewrite BuildPermissions_firstError.
    rewrite (firstError_valid ps Hall).
    eexists. split; [reflexivity|]. split; [apply length_map|].
    induction Hall as [|s rest Hs _ IH]; cbn [map]; [reflexivity|].
    rewrite IH. f_equal.
    destruct (ValidatePermission_cases s)
      as [(_ & E)|[(_ & _ & E)|[(_ & _ & _ & E)|(Hlen & Hol & Hne & _)]]];
      try (rewrite Hs in E; discriminate).
    pose proof (Join_Split s "::") as Hj.
    rewrite (BuildPermission_valid s Hs). cbn [fst].
    destruct (strings.Split s "::") as [|a [|b [|c [|d l]]]];
      simpl in Hlen; try lia.
    rewrite <- Hj. reflexivity.
  - intros good bad rest e -> Hgood Hbad.
    rewrite BuildPermissions_firstError.
    rewrite (firstError_app good bad rest e); trivial.
    unfold BuildPermission. now rewrite Hbad.
Qed.

Lemma BuildPermissions_spec_witness :
  (exists pSl,
      BuildPermissions ["iam::RO::create::role"; "iam::RL::get::role::*"]
      = (pSl, None)
      /\ List.length pSl = 2
      /\ map Permission_String pSl
         = ["iam::RO::create::role"; "iam::RL::get::role::*"])
  /\ BuildPermissions ["iam::RO::create::role"; "iam::RX::get::role"; "x"]
     = ([], Some errOwnershipLevel).
Proof.
  split.
  - apply (proj1 (BuildPermissions_spec
                    ["iam::RO::create::role"; "iam::RL::get::role::*"])).
    repeat constructor.
  - apply (proj2 (BuildPermissions_spec
                    ["iam::RO::create::role"; "iam::RX::get::role"; "x"])
             ["iam::RO::create::role"] "iam::RX::get::role" ["x"]);
      [reflexivity|repeat constructor|reflexivity].
Defined.

(** X10.  The permission strings that the service builds for itself are
    built back into the permission that was meant: the service name, the
    ownership level of the builder, the action and the hierarchy.  The
    name and the action have to be parts and not empty, and the hierarchy
    without an empty segment. *)
Theorem BuildWillIAMPermission_build (name action rh : string) :
  isPart name = true -> name <> "" ->
  isPart action = true -> action <> "" ->
  ~ In "" (strings.Split rh "::") ->
  BuildPermission (BuildWillIAMPermissionOwner name action rh)
  = ({| ID := ""; RoleID := ""; Service := name; OwnershipLevel := "RO";
        Action := action; ResourceHierarchy := rh; Alias := "" |}, None)
  /\ BuildPermission (BuildWillIAMPermissionLender name action rh)
     = ({| ID := ""; RoleID := ""; Service := name; OwnershipLevel := "RL";
           Action := action; ResourceHierarchy := rh; Alias := "" |}, None).
Proof.
  intros Hn Hnne Ha Hane Hrh.
  unfold BuildWillIAMPermissionOwner, BuildWillIAMPermissionLender,
    buildWillIAMPermission, OwnershipLevels.Owner, OwnershipLevels.Lender.
  split; apply BuildPermission_components; auto.
Qed.

Lemma BuildWillIAMPermission_build_witness :
  BuildPermission (BuildWillIAMPermissionOwner "iam" "create" "role::*")
  = ({| ID := ""; RoleID := ""; Service := "iam"; OwnershipLevel := "RO";
        Action := "create"; ResourceHierarchy := "role::*"; Alias := "" |}, None)
  /\ BuildPermission (BuildWillIAMPermissionLender "iam" "create" "role::*")
     = ({| ID := ""; RoleID := ""; Service := "iam"; OwnershipLevel := "RL";
           Action := "create"; ResourceHierarchy := "role::*"; Alias := "" |}, None).
Proof.
  apply (BuildWillIAMPermission_build "iam" "create" "role::*");
    try reflexivity; try discriminate.
  vm_compute. intuition discriminate.
Defined.

(* ================================================================= *)
(** ** The authorization check, further *)

Section Authorization.

Lemma Less_irrefl (o : string) : Less o o = false.
Proof.
  unfold Less, OwnershipLevels.Lender, OwnershipLevels.Owner.
  destruct (String.eqb_spec o "RL") as [->|]; reflexivity.
Qed.

Lemma Less_true (o oo : string) : Less o oo = true <-> o = "RL" /\ oo = "RO".
Proof.
  unfold Less, OwnershipLevels.Lender, OwnershipLevels.Owner.
  destruct (String.eqb_spec o "RL"), (String.eqb_spec oo "RO"); cbn;
    split; try discriminate; intuition congruence.
Qed.

Lemma satisfies_refl (p : Permission) : satisfies p p.
Proof.
  unfold satisfies. repeat split; auto using Less_irrefl, Contains_refl_aux.
Qed.

(** A grant satisfied through a grant of valid level is satisfied. *)
Lemma satisfies_trans (h q p : Permission) :
  OwnershipLevel q = "RO" \/ OwnershipLevel q = "RL" ->
  satisfies h q -> satisfies q p -> satisfies h p.
Proof.
  intros Hq (Hs1 & Ha1 & Hl1 & Hc1) (Hs2 & Ha2 & Hl2 & Hc2).
  unfold satisfies. repeat split.
  - destruct Hs1 as [? | ->]; auto.
  - destruct Ha1 as [? | ->]; auto.
  - destruct (Less (OwnershipLevel h) (OwnershipLevel p)) eqn:E; trivial.
    apply Less_true in E as [Eh Ep]. exfalso.
    destruct Hq as [Hq|Hq].
    + assert (Less (OwnershipLevel h) (OwnershipLevel q) = true)
        by (apply Less_true; auto). congruence.
    + assert (Less (OwnershipLevel q) (OwnershipLevel p) = true)
        by (apply Less_true; auto). congruence.
  - apply Contains_true_iff in Hc1; apply Contains_true_iff in Hc2;
      apply Contains_true_iff; cbv zeta in *.
    now apply (covers_trans _ (strings.Split (ResourceHierarchy q) "::")).
Qed.

Lemma IsPresent_true_exists (p : Permission) (held : list Permission) :
  IsPresent p held = true -> exists h, In h held /\ satisfies h p.
Proof.
  induction held as [|pp rest IH]; [discriminate|].
  intros H. apply IsPresent_cons in H as [Hs|H].
  - exists pp. split; [now left|trivial].
  - destruct (IH H) as (h & Hin & Hs). exists h. split; [now right|trivial].
Qed.

Lemma IsPresent_false_forall (p : Permission) (held : list Permission) :
  (forall h, In h held -> ~ satisfies h p) -> IsPresent p held = false.
Proof.
  intros H. destruct (IsPresent p held) eqn:E; [|reflexivity].
  apply IsPresent_true_exists in E as (h & Hin & Hs). now apply H in Hs.
Qed.

End Authorization.

(** X11.  A permission that is held is present: every element of the held
    list passes the check against that list. *)
Theorem IsPresent_held (p : Permission) (held : list Permission) :
  In p held -> IsPresent p held = true.
Proof.
  intros Hin. apply (IsPresent_In p p); [exact Hin|apply satisfies_refl].
Qed.

Lemma IsPresent_held_witness :
  IsPresent scenario.held [scenario.grant; scenario.held] = true.
Proof.
  apply (IsPresent_held scenario.held [scenario.grant; scenario.held]).
  right. now left.
Defined.

(** X12.  The check on two lists of held permissions put together is the
    disjunction of the checks on each. *)
Theorem IsPresent_app (p : Permission) (A B : list Permission) :
  IsPresent p (A ++ B) = IsPresent p A || IsPresent p B.
Proof.
  induction A as [|pp rest IH]; [reflexivity|].
  cbn [app IsPresent].
  destruct ((negb (Service pp =? "*") && negb (Service pp =? Service p))
            || (negb (Action pp =? "*") && negb (Action pp =? Action p))
            || Less (OwnershipLevel pp) (OwnershipLevel p)); [exact IH|].
  destruct (Contains (ResourceHierarchy pp) (ResourceHierarchy p));
    [reflexivity|exact IH].
Qed.

(** X13.  Lender permissions never satisfy a candidate that asks for
    ownership: when every held permission has the level ["RL"] and the
    candidate has the level ["RO"], the candidate is not present. *)
Theorem IsPresent_lender (p : Permission) (held : list Permission) :
  (forall h, In h held -> OwnershipLevel h = "RL") ->
  OwnershipLevel p = "RO" ->
  IsPresent p held = false.
Proof.
  intros Hheld Hp. apply IsPresent_false_forall.
  intros h Hin (_ & _ & Hl & _).
  assert (Less (OwnershipLevel h) (OwnershipLevel p) = true)
    by (apply Less_true; auto).
  congruence.
Qed.

Lemma IsPresent_lender_witness :
  IsPresent (fst (BuildPermission "maestro::RO::deploy::maestro::sniper-3d::na"))
            [scenario.held] = false.
Proof.
  apply IsPresent_lender.
  - intros h [<-|[]]. reflexivity.
  - reflexivity.
Defined.

(** X14.  A held permission with full ownership of a service
    ([HasServiceFullOwnership]) makes every candidate of that service
    present, whatever its level, action and hierarchy; with full access
    only ([HasServiceFullAccess]), every candidate of the service whose
    level the held level is not less than. *)
Theorem IsPresent_full (p h : Permission) (held : list Permission) :
  In h held ->
  Service h = "*" \/ Service h = Service p ->
  (HasServiceFullOwnership h = true -> IsPresent p held = true)
  /\ (HasServiceFullAccess h = true ->
      Less (OwnershipLevel h) (OwnershipLevel p) = false ->
      IsPresent p held = true).
Proof.
  intros Hin Hs.
  assert (HasServiceFullAccess h = true ->
          Less (OwnershipLevel h) (OwnershipLevel p) = false ->
          IsPresent p held = true) as Haccess.
  { unfold HasServiceFullAccess, Action.All, ResourceHierarchy.All, Action.String.
    intros Hfull Hl.
    destruct (String.eqb_spec (Action h) "*") as [Ha|]; [|discriminate].
    cbn [negb] in Hfull. apply String.eqb_eq in Hfull.
    apply (IsPresent_In p h); trivial.
    repeat split; auto. rewrite Hfull. apply Contains_star_l. }
  split; [|exact Haccess].
  unfold HasServiceFullOwnership. intros H.
  apply andb_true_iff in H as [Hfull Ho].
  apply Haccess; trivial.
  apply String.eqb_eq in Ho. rewrite Ho.
  destruct (Less OwnershipLevels.Owner (OwnershipLevel p)) eqn:E; trivial.
  apply Less_true in E as [E _]. discriminate.
Qed.

Lemma IsPresent_full_witness :
  IsPresent scenario.candidate
    [scenario.grant; fst (BuildPermission "maestro::RO::*::*")] = true.
Proof.
  apply (proj1 (IsPresent_full scenario.candidate
                  (fst (BuildPermission "maestro::RO::*::*"))
                  [scenario.grant; fst (BuildPermission "maestro::RO::*::*")]
                  (or_intror (or_introl eq_refl))
                  (or_intror eq_refl))).
  reflexivity.
Defined.

(** X15.  What a held grant allows to pass on stays within what is held:
    if the permission [q], of a valid ownership level, is present in the
    held list, every candidate that [q] alone would make present is
    present in the held list too. *)
Theorem IsPresent_trans (p q : Permission) (held : list Permission) :
  OwnershipLevel q = "RO" \/ OwnershipLevel q = "RL" ->
  IsPresent q held = true ->
  IsPresent p [q] = true ->
  IsPresent p held = true.
Proof.
  intros Hq Hheld Hp.
  apply IsPresent_true_exists in Hheld as (h & Hin & Hhq).
  apply IsPresent_true_exists in Hp as (q' & [<-|[]] & Hqp).
  apply (IsPresent_In p h); trivial.
  now apply (satisfies_trans h q p).
Qed.

Lemma IsPresent_trans_witness :
  IsPresent scenario.candidate
    [scenario.grant; fst (BuildPermission "maestro::RO::*::*")] = true.
Proof.
  apply (IsPresent_trans scenario.candidate scenario.held
           [scenario.grant; fst (BuildPermission "maestro::RO::*::*")]);
    [right; reflexivity|reflexivity|reflexivity].
Defined.

(** X16.  The check looks at the service, the ownership level, the action
    and the hierarchy only: neither the role id, nor the id, nor the alias
    of the candidate or of a held permission changes its result.  It is
    for the caller to hand over the permissions of the right role. *)
Theorem IsPresent_fields (p p' : Permission) (held held' : list Permission) :
  Service p = Service p' -> OwnershipLevel p = OwnershipLevel p' ->
  Action p = Action p' -> ResourceHierarchy p = ResourceHierarchy p' ->
  Forall2 (fun h h' =>
             Service h = Service h' /\ OwnershipLevel h = OwnershipLevel h'
             /\ Action h = Action h'
             /\ ResourceHierarchy h = ResourceHierarchy h') held held' ->
  IsPresent p held = IsPresent p' held'.
Proof.
  intros Hs Ho Ha Hr Hheld.
  induction Hheld as [|h h' rest rest' (Hs' & Ho' & Ha' & Hr') _ IH];
    [reflexivity|].
  cbn [IsPresent]. now rewrite Hs, Ho, Ha, Hr, Hs', Ho', Ha', Hr', IH.
Qed.

Lemma IsPresent_fields_witness :
  IsPresent (setRoleID scenario.candidate "r1") [setRoleID scenario.held "r2"]
  = IsPresent scenario.candidate [scenario.held].
Proof.
  apply IsPresent_fields; try reflexivity.
  constructor; [|constructor]. repeat split.
Defined.

(* ================================================================= *)
(** ** The attribution workflow, further *)


(** X17.  Once the emails are resolved, [AttributeToEmails] is [Attribute]
    on the base roles of the accounts: the same result and the same
    world. *)
Theorem AttributeToEmails_Attribute
    {DB : Type} (repo : All DB) (pa : PermissionsAttributeToEmails.t)
    (w : World DB) (sas : list ServiceAccount.t) :
  ServiceAccounts_ForEmails repo
    (PermissionsAttributeToEmails.Emails pa) (store w) = (sas, None) ->
  AttributeToEmails repo pa w =
  Attribute repo
    {| PermissionsAttribute.RolesIDs := map ServiceAccount.BaseRoleID sas;
       PermissionsAttribute.PermissionsStrings :=
         PermissionsAttributeToEmails.PermissionsStrings pa;
       PermissionsAttribute.PermissionsAliases :=
         PermissionsAttributeToEmails.PermissionsAliases pa;
       PermissionsAttribute.Permissions :=
         PermissionsAttributeToEmails.Permissions pa |} w.
Proof.
  intros Hres.
  rewrite (AttributeToEmails_creates_eq repo pa w sas Hres).
  now rewrite Attribute_creates_eq.
Qed.

Lemma AttributeToEmails_Attribute_witness :
  AttributeToEmails (mem.repo scenario.noFailure)
    (scenario.paEmails ["b@x.com"]) scenario.w0
  = Attribute (mem.repo scenario.noFailure)
      {| PermissionsAttribute.RolesIDs := ["r1"];
         PermissionsAttribute.PermissionsStrings := [];
         PermissionsAttribute.PermissionsAliases := [];
         PermissionsAttribute.Permissions := [scenario.t1] |} scenario.w0.
Proof.
  apply (AttributeToEmails_Attribute (mem.repo scenario.noFailure)
           (scenario.paEmails ["b@x.com"]) scenario.w0 [scenario.account]).
  reflexivity.
Defined.

(** X18.  With no role or with no template, the loops of [Attribute]
    return no error and leave the world as it was; the call issues no
    create and leaves the store as it was, and what it returns is the
    error of the begin or of the commit of its transaction, if there is
    one. *)
Theorem Attribute_empty
    {DB : Type} (repo : All DB) (pa : PermissionsAttribute.t) (w : World DB) :
  PermissionsAttribute.RolesIDs pa = []
  \/ PermissionsAttribute.Permissions pa = [] ->
  Attribute_roles repo (PermissionsAttribute.RolesIDs pa)
    (PermissionsAttribute.Permissions pa) w = (None, w)
  /\ created (trace (snd (Attribute repo pa w))) = created (trace w)
  /\ store (snd (Attribute repo pa w)) = store w
  /\ fst (Attribute repo pa w) =
     match Tx_Begin repo (store w) with
     | Some e => Some e
     | None => Tx_Commit repo (store w)
     end.
Proof.
  intros H.
  assert (cross (PermissionsAttribute.RolesIDs pa)
                (PermissionsAttribute.Permissions pa) = []) as Hc
    by (destruct H as [-> | ->]; [reflexivity|apply cross_nil_r]).
  split; [rewrite Attribute_roles_creates, Hc; reflexivity|].
  rewrite Attribute_creates_eq, Hc, WithPGTx_run. cbv zeta.
  cbn [creates ret fst snd store trace].
  destruct (Tx_Begin repo (store w)); [repeat split|].
  destruct (Tx_Commit repo (store w)); cbn [fst snd store trace];
    rewrite !created_app; cbn [created]; rewrite !app_nil_r; repeat split.
Qed.

Lemma Attribute_empty_witness :
  Attribute_roles (mem.repo scenario.secondWrite) ["r1"; "r2"] []
    scenario.w0 = (None, scenario.w0)
  /\ Attribute (mem.repoTx scenario.secondWrite None (Some "commit failed"))
       {| PermissionsAttribute.RolesIDs := ["r1"; "r2"];
          PermissionsAttribute.PermissionsStrings := [];
          PermissionsAttribute.PermissionsAliases := [];
          PermissionsAttribute.Permissions := [] |} scenario.w0
     = (Some "commit failed",
        {| store := store scenario.w0;
           trace := trace scenario.w0 ++ [TxBegin; TxRollback] |}).
Proof.
  split.
  - apply (proj1 (Attribute_empty (mem.repo scenario.secondWrite)
                    {| PermissionsAttribute.RolesIDs := ["r1"; "r2"];
                       PermissionsAttribute.PermissionsStrings := [];
                       PermissionsAttribute.PermissionsAliases := [];
                       PermissionsAttribute.Permissions := [] |}
                    scenario.w0 (or_intror eq_refl))).
  - reflexivity.
Defined.

(** X19.  An attribution issues at most one create per pair of a role and
    a template: the number of roles times the number of templates when it
    returns no error, at most that many when it returns one, and none when
    its transaction does not begin. *)
Theorem Attribute_count
    {DB : Type} (repo : All DB) (pa : PermissionsAttribute.t) (w : World DB) :
  let issued := List.length (created (trace (snd (Attribute repo pa w)))) in
  let before := List.length (created (trace w)) in
  let pairs := List.length (PermissionsAttribute.RolesIDs pa)
               * List.length (PermissionsAttribute.Permissions pa) in
  match fst (Attribute repo pa w) with
  | None => issued = before + pairs
  | Some _ => before <= issued <= before + pairs
  end
  /\ (Tx_Begin repo (store w) <> None -> issued = before).
Proof.
  cbv zeta.
  rewrite <- (cross_length (PermissionsAttribute.RolesIDs pa)
                (PermissionsAttribute.Permissions pa)).
  set (ps := cross _ _).
  assert (atomicOutcome repo ps w (Attribute repo pa w)) as Ha
    by (subst ps; rewrite Attribute_creates_eq; apply WithPGTx_atomic).
  pose proof (atomic_createsIssued repo ps w _ Ha) as [Hnb Hb].
  split; [|intros Hne; now rewrite (Hnb Hne)].
  destruct Ha as [Hbegin Hrun].
  destruct (Tx_Begin repo (store w)) as [e|] eqn:Eb.
  - rewrite (Hbegin e eq_refl). cbn [fst snd]. lia.
  - destruct (Hb eq_refl) as [Hfail Hok].
    destruct (Hrun eq_refl) as [Hfail' Hok'].
    destruct (failure_or_not repo ps (store w)) as [(k & e & Hf)|Hno].
    + rewrite (Hfail k e Hf), (Hfail' k e Hf). cbn [fst].
      rewrite length_app, length_firstn. lia.
    + rewrite (Hok Hno). specialize (Hok' Hno).
      destruct (Tx_Commit repo _); rewrite Hok'; cbn [fst];
        rewrite length_app; lia.
Qed.

Lemma Attribute_count_witness :
  List.length
    (created (trace (snd (Attribute
                            (mem.repoTx scenario.noFailure
                               (Some "begin failed") None)
                            scenario.pa scenario.w0))))
  = List.length (created (trace scenario.w0)).
Proof.
  apply (proj2 (Attribute_count
                  (mem.repoTx scenario.noFailure (Some "begin failed") None)
                  scenario.pa scenario.w0)).
  discriminate.
Defined.

(* ================================================================= *)
(** ** The handler that creates service accounts *)

Section Handlers.

Import api.

Variable sasUC : ServiceAccounts.

(** The runs of the handler, by the request that leads to them. *)
Lemma serviceAccountsCreateHandler_cases
    (readErr : option error) (m : string -> option value) :
  let es := serviceAccountsCreateHandler sasUC readErr m in
  (exists err, readErr = Some err /\
      es = [LogError err; WriteHeader StatusInternalServerError])
  \/ (readErr = None /\
      (forall name, m "name" = Some (VString name) -> name = "") /\
      es = [Write StatusUnprocessableEntity (errorBody "name" "required")])
  \/ (exists name, readErr = None /\
      m "name" = Some (VString name) /\ name <> "" /\
      (forall t, m "authenticationType" = Some (VString t) -> t = "") /\
      es = [Write StatusUnprocessableEntity
              (errorBody "authenticationType" "required")])
  \/ (exists name, readErr = None /\
      m "name" = Some (VString name) /\ name <> "" /\
      m "authenticationType" = Some (VString "oauth2") /\
      (forall email, m "email" = Some (VString email) -> email = "") /\
      es = [Write StatusUnprocessableEntity (errorBody "email" "required")])
  \/ (exists name email, readErr = None /\
      m "name" = Some (VString name) /\ name <> "" /\
      m "authenticationType" = Some (VString "oauth2") /\
      m "email" = Some (VString email) /\ email <> "" /\
      es = CallCreateOAuth2Type name email ::
           match CreateOAuth2Type sasUC name email with
           | Some err => [LogError err; WriteHeader StatusInternalServerError]
           | None => [WriteHeader StatusCreated]
           end)
  \/ (exists name, readErr = None /\
      m "name" = Some (VString name) /\ name <> "" /\
      m "authenticationType" = Some (VString "keypair") /\
      es = CallCreateKeyPairType name ::
           match CreateKeyPairType sasUC name with
           | Some err => [LogError err; WriteHeader StatusInternalServerError]
           | None => [WriteHeader StatusCreated]
           end)
  \/ (exists name t, readErr = None /\
      m "name" = Some (VString name) /\ name <> "" /\
      m "authenticationType" = Some (VString t) /\
      t <> "" /\ t <> "oauth2" /\ t <> "keypair" /\
      es = [Write StatusUnprocessableEntity
              (errorBody "authenticationType" "invalid")]).
Proof.
  assert (forall (k : option value),
             match k with Some (VString _) => False | _ => True end ->
             forall x, k = Some (VString x) -> x = "") as Habsent
    by (intros [[x|]|] Hk y Hy; solve [contradiction|discriminate]).
  assert (forall x, Some (VString "") = Some (VString x) -> x = "") as Hempty
    by (intros x [= <-]; reflexivity).
  intros es.
  assert (es = serviceAccountsCreateHandler sasUC readErr m) as Hes
    by reflexivity.
  clearbody es. unfold serviceAccountsCreateHandler, asString in Hes.
  destruct readErr as [err|]; [left; eauto|]. right.
  destruct (m "name") as [[name|]|] eqn:En; cbn [negb orb] in Hes;
    [|left; repeat split; trivial; now apply Habsent..].
  destruct (String.eqb_spec name "") as [->|Hname];
    [left; repeat split; trivial|].
  right.
  destruct (m "authenticationType") as [[t|]|] eqn:Et; cbn [negb orb] in Hes;
    [|left; exists name; repeat split; trivial; now apply Habsent..].
  destruct (String.eqb_spec t "") as [->|Ht];
    [left; exists name; repeat split; trivial|].
  right.
  destruct (String.eqb_spec t "oauth2") as [->|Hoauth].
  - destruct (m "email") as [[email|]|] eqn:Ee; cbn [negb orb] in Hes;
      [|left; exists name; repeat split; trivial; now apply Habsent..].
    destruct (String.eqb_spec email "") as [->|Hemail];
      [left; exists name; repeat split; trivial|].
    right. left. exists name, email. repeat split; trivial.
  - right. right.
    destruct (String.eqb_spec t "keypair") as [->|Hkey].
    + left. exists name. repeat split; trivial.
    + right. exists name, t. repeat split; trivial.
Qed.

End Handlers.

(** One side of an equivalence on a run of the handler: the fields of the
    request that the run has found absent or empty are not there. *)
Ltac handler_case :=
  let H := fresh in
  intros H; decompose [and or] H; try contradiction;
  repeat match goal with
    | Ha : forall x, ?k = Some (api.VString x) -> x = "",
      Hb : ?k = Some (api.VString ?y) |- _ => apply Ha in Hb
    end;
  try discriminate; try congruence; intuition congruence.

(** X20.  The handler calls a use case at most once, and only for a
    request that is valid: [CreateOAuth2Type] exactly when the body was
    read, the name and the email are strings that are not empty and the
    authentication type is ["oauth2"]; [CreateKeyPairType] exactly when the
    body was read, the name is a string that is not empty and the
    authentication type is ["keypair"]. *)
Theorem serviceAccountsCreateHandler_calls
    (sasUC : api.ServiceAccounts) (readErr : option error)
    (m : string -> option api.value) :
  let es := api.serviceAccountsCreateHandler sasUC readErr m in
  List.length (filter api.isCall es) <= 1
  /\ (forall name email,
       In (api.CallCreateOAuth2Type name email) es <->
       readErr = None
       /\ m "name" = Some (api.VString name) /\ name <> ""
       /\ m "authenticationType" = Some (api.VString "oauth2")
       /\ m "email" = Some (api.VString email) /\ email <> "")
  /\ (forall name,
       In (api.CallCreateKeyPairType name) es <->
       readErr = None
       /\ m "name" = Some (api.VString name) /\ name <> ""
       /\ m "authenticationType" = Some (api.VString "keypair")).
Proof.
  intros es.
  destruct (serviceAccountsCreateHandler_cases sasUC readErr m)
    as [(err & Hr & E)
       |[(Hr & Hn & E)
        |[(name & Hr & Hn & Hne & Ht & E)
         |[(name & Hr & Hn & Hne & Ht & He & E)
          |[(name & email & Hr & Hn & Hne & Ht & He & Hee & E)
           |[(name & Hr & Hn & Hne & Ht & E)
            |(name & t & Hr & Hn & Hne & Ht & Ht1 & Ht2 & Ht3 & E)]]]]]];
    fold es in E; rewrite E; clear E es.
  - split; [cbn; lia|]. split; intros; cbn [In]; intuition congruence.
  - split; [cbn; lia|]. split; intros; cbn [In]; split; handler_case.
  - split; [cbn; lia|]. split; intros; cbn [In]; split; handler_case.
  - split; [cbn; lia|]. split; intros; cbn [In]; split; handler_case.
  - destruct (api.CreateOAuth2Type sasUC name email);
      (split; [cbn; lia|]);
      split; intros; cbn [In]; split; handler_case.
  - destruct (api.CreateKeyPairType sasUC name);
      (split; [cbn; lia|]);
      split; intros; cbn [In]; split; handler_case.
  - split; [cbn; lia|]. split; intros; cbn [In]; split; handler_case.
Qed.

(** One side of an equivalence on the status of a run of the handler. *)
Ltac status_side :=
  let H := fresh in
  intros H;
  repeat match goal with
    | H : exists _, _ |- _ => destruct H
    | H : _ /\ _ |- _ => destruct H
    | H : _ \/ _ |- _ => destruct H
    | H : In _ _ |- _ => cbn [In] in H
    | H : False |- _ => contradiction
    | H : api.CallCreateOAuth2Type _ _ = api.CallCreateOAuth2Type _ _ |- _ =>
        injection H as ? ?; subst
    | H : api.CallCreateKeyPairType _ = api.CallCreateKeyPairType _ |- _ =>
        injection H as ?; subst
    end;
  try discriminate; try congruence;
  try (split; [congruence|reflexivity]);
  try solve [eexists; cbn [In]; eauto 6];
  try solve [left; do 2 eexists; split; [left; reflexivity|assumption]];
  try solve [right; eexists; split; [left; reflexivity|assumption]].

Ltac status_goals :=
  split; [reflexivity|split; [reflexivity|split; [split|split; split]]];
  status_side.

(** X21.  Every run of the handler answers once, and the answer is the
    last thing it does.  The status is 201 exactly when a use case was
    called and returned no error, 500 exactly when an error was logged
    (the body could not be read, or the use case returned an error), and
    422 exactly when the body was read and no use case was called. *)
Theorem serviceAccountsCreateHandler_status
    (sasUC : api.ServiceAccounts) (readErr : option error)
    (m : string -> option api.value) :
  let es := api.serviceAccountsCreateHandler sasUC readErr m in
  exists st,
    api.statuses es = [st]
    /\ api.statusOf (last es (api.LogError "")) = Some st
    /\ (st = 201 <->
        (exists name email,
            In (api.CallCreateOAuth2Type name email) es
            /\ api.CreateOAuth2Type sasUC name email = None)
        \/ (exists name,
            In (api.CallCreateKeyPairType name) es
            /\ api.CreateKeyPairType sasUC name = None))
    /\ (st = 500 <-> exists err, In (api.LogError err) es)
    /\ (st = 422 <-> readErr = None /\ filter api.isCall es = []).
Proof.
  intros es.
  destruct (serviceAccountsCreateHandler_cases sasUC readErr m)
    as [(err & Hr & E)
       |[(Hr & Hn & E)
        |[(name & Hr & Hn & Hne & Ht & E)
         |[(name & Hr & Hn & Hne & Ht & He & E)
          |[(name & email & Hr & Hn & Hne & Ht & He & Hee & E)
           |[(name & Hr & Hn & Hne & Ht & E)
            |(name & t & Hr & Hn & Hne & Ht & Ht1 & Ht2 & Ht3 & E)]]]]]];
    fold es in E; rewrite E; clear E es.
  - exists 500. status_goals.
  - exists 422. status_goals.
  - exists 422. status_goals.
  - exists 422. status_goals.
  - destruct (api.CreateOAuth2Type sasUC name email) eqn:Ec;
      [exists 500|exists 201]; status_goals.
  - destruct (api.CreateKeyPairType sasUC name) eqn:Ec;
      [exists 500|exists 201]; status_goals.
  - exists 422. status_goals.
Qed.

(* ================================================================= *)
(** ** Hierarchies closed by their wildcard, and distinct keys *)

(** X22.  On hierarchies closed by their wildcard, containment is
    antisymmetric: two such hierarchies that contain each other are the
    same.  With X1 and X3, containment is a partial order on them. *)
Theorem Contains_antisym (a b : string) :
  wildcardLast (strings.Split a "::") ->
  wildcardLast (strings.Split b "::") ->
  Contains a b = true -> Contains b a = true -> a = b.
Proof.
  intros Hwa Hwb Hab Hba. apply Split_inj.
  apply Contains_true_iff in Hab; apply Contains_true_iff in Hba.
  cbv zeta in *.
  set (A := strings.Split a "::") in *.
  set (B := strings.Split b "::") in *.
  destruct Hab as [Hlab [Hab|(k & Hk & Hsk & Hfk)]]; [exact Hab|].
  destruct Hba as [Hlba [Hba|(j & Hj & Hsj & Hfj)]]; [now symmetry|].
  pose proof (Hwa _ Hsk) as Hka. pose proof (Hwb _ Hsj) as Hjb.
  assert (j = k) as -> by lia.
  rewrite (snoc_last A k Hka), (snoc_last B k Hjb).
  now rewrite Hsk, Hsj, Hfk.
Qed.

Lemma Contains_antisym_witness : "maestro::*" = "maestro::*".
Proof.
  apply (Contains_antisym "maestro::*" "maestro::*"); try reflexivity;
    change (strings.Split "maestro::*" "::") with ["maestro"; "*"];
    intros [|[|[|i]]] H; cbn in H; solve [discriminate H|reflexivity].
Defined.

(** X23.  [PermissionMatches] lists no key twice. *)
Theorem PermissionMatches_NoDup (rh : string) : NoDup (PermissionMatches rh).
Proof.
  destruct (String.eqb_spec rh "*") as [->|Hrh].
  - repeat constructor. intros [].
  - destruct (PermissionMatches_keys rh Hrh) as (n & Hn & Hall & Hend & E).
    rewrite E. clear E. set (parts := strings.Split rh "::") in *.
    assert (forall i, 1 <= i <= n ->
              strings.Split
                (strings.Join (firstn i parts) "::" ++ "::*")%string "::"
              = firstn i parts ++ ["*"]) as Hkey
      by (intros i Hi; apply Split_key; fold parts; lia).
    constructor.
    + (* the universal wildcard is no other key *)
      intros Hin. apply in_app_or in Hin as [Hin|[Hin|[]]]; [|congruence].
      apply in_map_iff in Hin as (i & Hi & Hin). apply in_seq in Hin.
      apply (f_equal (fun s => List.length (strings.Split s "::"))) in Hi.
      rewrite Hkey, length_app, length_firstn in Hi by lia.
      cbn in Hi. lia.
    + apply NoDup_app.
      * (* keys of different lengths *)
        apply NoDup_map_NoDup_ForallPairs; [|apply seq_NoDup].
        intros i j Hi Hj Hij. apply in_seq in Hi, Hj.
        apply (f_equal (fun s => List.length (strings.Split s "::"))) in Hij.
        rewrite !Hkey, !length_app, !length_firstn in Hij by lia.
        cbn in Hij. lia.
      * repeat constructor. intros [].
      * (* the hierarchy itself is no wildcard key of its own *)
        intros h Hin [<-|[]].
        apply in_map_iff in Hin as (i & Hi & Hin). apply in_seq in Hin.
        apply (f_equal (fun s => strings.Split s "::")) in Hi.
        rewrite Hkey in Hi by lia. fold parts in Hi.
        apply (Hall i); [lia|]. rewrite <- Hi.
        rewrite app_nth2 by (rewrite length_firstn; lia).
        rewrite length_firstn.
        replace (i - Nat.min i (List.length parts)) with 0 by lia.
        reflexivity.
Qed.

(* ================================================================= *)
(** ** Looking up a service account by its email *)

(** X24.  [ForEmail] returns an account or an error, never both and never
    neither.  An error of the query is returned as it is.  On a table of
    accounts, an email that no account has gives the error that names the
    email, and an account that is returned is an account of the table, has
    the email asked for and an id that is not empty. *)
Theorem ForEmail_spec
    (query : string -> ServiceAccount.t * option error)
    (table : list ServiceAccount.t) (email : string) :
  ((exists sa, serviceAccounts.ForEmail query email = (Some sa, None))
   \/ (exists e, serviceAccounts.ForEmail query email = (None, Some e)))
  /\ (forall e, snd (query email) = Some e ->
        serviceAccounts.ForEmail query email = (None, Some e))
  /\ ((forall sa, In sa table -> ServiceAccount.Email sa <> email) ->
        serviceAccounts.ForEmail (serviceAccounts.tableQuery table) email
        = (None, Some ("Service Account not found for email " ++ email)%string))
  /\ (forall sa,
        serviceAccounts.ForEmail (serviceAccounts.tableQuery table) email
        = (Some sa, None) ->
        In sa table /\ ServiceAccount.Email sa = email
        /\ ServiceAccount.ID sa <> "").
Proof.
  unfold serviceAccounts.ForEmail.
  split; [|split; [|split]].
  - destruct (query email) as [sa [e|]]; [right; eauto|].
    destruct (ServiceAccount.ID sa =? ""); [right|left]; eauto.
  - intros e He. destruct (query email) as [sa err]. cbn in He.
    now rewrite He.
  - intros Hnone.
    unfold serviceAccounts.tableQuery, mem.queryByEmail.
    cbn [mem.service_accounts].
    destruct (find (fun sa => ServiceAccount.Email sa =? email) table)
      as [sa|] eqn:Ef; [|reflexivity].
    apply find_some in Ef as [Hin Heq]. apply String.eqb_eq in Heq.
    now apply Hnone in Hin.
  - intros sa.
    unfold serviceAccounts.tableQuery, mem.queryByEmail.
    cbn [mem.service_accounts].
    destruct (find (fun sa => ServiceAccount.Email sa =? email) table)
      as [row|] eqn:Ef.
    + destruct (String.eqb_spec (ServiceAccount.ID row) "") as [|Hid];
        [discriminate|].
      intros [= <-]. apply find_some in Ef as [Hin Heq].
      apply String.eqb_eq in Heq. auto.
    + cbn. discriminate.
Qed.

Lemma ForEmail_spec_witness :
  serviceAccounts.ForEmail (serviceAccounts.tableQuery [scenario.account])
    "a@x.com"
  = (None, Some "Service Account not found for email a@x.com").
Proof.
  apply (proj1 (proj2 (proj2
           (ForEmail_spec (serviceAccounts.tableQuery [scenario.account])
              [scenario.account] "a@x.com")))).
  intros sa [<-|[]]. discriminate.
Defined.
